(** * Strict market matcher: a shallow embedding of [strict_matcher.py]

    The development follows the source file top to bottom: the string
    helpers and the regular expressions the extractors are written with,
    the normaliser ([load_and_preprocess]), the quality gate
    ([semantic_similarity_check], [is_high_quality_match]), the candidate
    search ([find_matches]), the deduplicator ([deduplicate_matches]) and
    the writer ([save_matches]).

    Modelling conventions.
    - A Python [str] is a [string]; the model is the one-byte-per-character
      (ASCII) reading of the text, so [lower], [\d], [\s], [\w] and [\b]
      are the ASCII ones.
    - A Python [float] is an exact rational ([Q]); binary64 rounding is
      idealised away, and the non-finite floats have no counterpart.
    - Python sets of strings are [gset string], sets of indices [gset nat].
    - An uncaught Python exception is an [Err] result. *)

From Stdlib Require Import QArith Qround Qabs Qminmax Lqa Ascii String.
From stdpp Require Import gmap strings list sorting.

Close Scope Q_scope.
Open Scope string_scope.
Open Scope list_scope.

(** ** Characters and strings *)

Module Str.

Definition code (c : ascii) : nat := nat_of_ascii c.

Definition between (lo hi : nat) (c : ascii) : bool :=
  (lo <=? code c)%nat && (code c <=? hi)%nat.

Definition is_digit : ascii -> bool := between 48 57.
Definition is_upper : ascii -> bool := between 65 90.
Definition is_lower_alpha : ascii -> bool := between 97 122.

(** [\w] *)
Definition is_word (c : ascii) : bool :=
  is_digit c || is_upper c || is_lower_alpha c || (code c =? 95)%nat.

(** [\s], and the characters [str.strip()] removes *)
Definition is_space (c : ascii) : bool :=
  between 9 13 c || between 28 32 c.

Definition lower_char (c : ascii) : ascii :=
  if is_upper c then ascii_of_nat (code c + 32) else c.

Definition chars (s : string) : list ascii := list_ascii_of_string s.
Definition str (l : list ascii) : string := string_of_list_ascii l.

(** [s.lower()] *)
Definition lower_l (l : list ascii) : list ascii := map lower_char l.
Definition lower (s : string) : string := str (lower_l (chars s)).

(** [s.strip()] *)
Fixpoint lstrip_l (l : list ascii) : list ascii :=
  match l with
  | c :: l' => if is_space c then lstrip_l l' else l
  | [] => []
  end.
Definition strip_l (l : list ascii) : list ascii :=
  rev (lstrip_l (rev (lstrip_l l))).
Definition strip (s : string) : string := str (strip_l (chars s)).

Fixpoint is_prefix (p l : list ascii) : bool :=
  match p, l with
  | [], _ => true
  | a :: p', b :: l' => Ascii.eqb a b && is_prefix p' l'
  | _ :: _, [] => false
  end.

(** [needle in hay] *)
Fixpoint contains_l (needle hay : list ascii) : bool :=
  is_prefix needle hay ||
  match hay with
  | [] => false
  | _ :: hay' => contains_l needle hay'
  end.
Definition contains (needle hay : string) : bool :=
  contains_l (chars needle) (chars hay).

(** [s.replace(old, new)] for a non-empty [old]: the occurrences are
    replaced left to right, without overlap. *)
Fixpoint replace_l (old new : list ascii) (skip : nat) (l : list ascii)
  : list ascii :=
  match l with
  | [] => []
  | c :: l' =>
      match skip with
      | S n => replace_l old new n l'
      | O =>
          if is_prefix old l
          then new ++ replace_l old new (length old - 1) l'
          else c :: replace_l old new 0 l'
      end
  end.
Definition replace (old new s : string) : string :=
  str (replace_l (chars old) (chars new) 0 (chars s)).

End Str.

(** ** Regular expressions

    The fragment of Python's [re] the source uses, with the backtracking
    matcher's order of preference: the left alternative first, a repetition
    as long as possible first. *)

Module Re.

Inductive regex : Type :=
| Eps
| Chr (p : ascii -> bool)
| Cat (r1 r2 : regex)
| Alt (r1 r2 : regex)
| Star (r : regex)
| WordB
| NLook (r : regex)
| Grp (n : nat) (r : regex).

(** The matcher's position: the text already passed (last character
    first), the text ahead, and the groups captured so far. *)
Record mstate : Type := MState {
  seen : list ascii;
  rest : list ascii;
  caps : list (nat * list ascii)
}.

Definition word_at (l : list ascii) : bool :=
  match l with
  | c :: _ => Str.is_word c
  | [] => false
  end.

(** [\b]: exactly one side is a word character *)
Definition at_boundary (st : mstate) : bool :=
  xorb (word_at (seen st)) (word_at (rest st)).

Definition capture (n : nat) (st0 st1 : mstate) : mstate :=
  MState (seen st1) (rest st1)
    ((n, rev (take (length (seen st1) - length (seen st0)) (seen st1)))
       :: caps st1).

Fixpoint rmatch {A : Type} (r : regex) (st : mstate)
    (k : mstate -> option A) {struct r} : option A :=
  match r with
  | Eps => k st
  | Chr p =>
      match rest st with
      | c :: cs => if p c then k (MState (c :: seen st) cs (caps st)) else None
      | [] => None
      end
  | Cat r1 r2 => rmatch r1 st (fun st' => rmatch r2 st' k)
  | Alt r1 r2 =>
      match rmatch r1 st k with
      | Some x => Some x
      | None => rmatch r2 st k
      end
  | Star r1 =>
      (fix loop (fuel : nat) (st : mstate) {struct fuel} : option A :=
         match fuel with
         | O => k st
         | S fuel' =>
             match rmatch r1 st (fun st' =>
                     if (length (rest st') <? length (rest st))%nat
                     then loop fuel' st' else None) with
             | Some x => Some x
             | None => k st
             end
         end) (length (rest st)) st
  | WordB => if at_boundary st then k st else None
  | NLook r1 =>
      match rmatch r1 st (fun _ => Some tt) with
      | Some _ => None
      | None => k st
      end
  | Grp n r1 => rmatch r1 st (fun st' => k (capture n st st'))
  end.

(** [re.search(r, s)] as a truth value *)
Fixpoint search_from (r : regex) (sn rs : list ascii) : bool :=
  match rmatch r (MState sn rs []) (fun _ => Some tt) with
  | Some _ => true
  | None =>
      match rs with
      | [] => false
      | c :: rs' => search_from r (c :: sn) rs'
      end
  end.
Definition search (r : regex) (s : string) : bool :=
  search_from r [] (Str.chars s).

(** The matches of [re.finditer(r, s)], left to right, without overlap;
    each is the matcher's final state. *)
Fixpoint finditer_from (r : regex) (skip : nat) (sn rs : list ascii)
  : list mstate :=
  match skip with
  | S n =>
      match rs with
      | [] => []
      | c :: rs' => finditer_from r n (c :: sn) rs'
      end
  | O =>
      match rmatch r (MState sn rs []) Some with
      | Some st' =>
          st' ::
          match rs with
          | [] => []
          | c :: rs' =>
              finditer_from r (length rs - length (rest st') - 1) (c :: sn) rs'
          end
      | None =>
          match rs with
          | [] => []
          | c :: rs' => finditer_from r 0 (c :: sn) rs'
          end
      end
  end.

(** [m.group(n)], the empty string when the group took no part *)
Definition group (n : nat) (st : mstate) : string :=
  match List.find (fun e => (fst e =? n)%nat) (caps st) with
  | Some (_, l) => Str.str l
  | None => ""
  end.

(** [re.findall] for a pattern with one group, and with two *)
Definition findall1 (r : regex) (s : string) : list string :=
  map (group 1) (finditer_from r 0 [] (Str.chars s)).
Definition findall2 (r : regex) (s : string) : list (string * string) :=
  map (fun st => (group 1 st, group 2 st)) (finditer_from r 0 [] (Str.chars s)).

(** Pattern combinators *)
Definition ch (c : ascii) : regex := Chr (Ascii.eqb c).
Definition lit (s : string) : regex :=
  foldr (fun c r => Cat (ch c) r) Eps (Str.chars s).
Definition cat (l : list regex) : regex := foldr Cat Eps l.
Fixpoint alt (l : list regex) : regex :=
  match l with
  | [] => NLook Eps
  | [r] => r
  | r :: l' => Alt r (alt l')
  end.
Definition words (l : list string) : regex := alt (map lit l).
Definition plus (r : regex) : regex := Cat r (Star r).
Definition opt (r : regex) : regex := Alt r Eps.
Definition d : regex := Chr Str.is_digit.
Definition s : regex := Chr Str.is_space.
Definition w : regex := Chr Str.is_word.
Definition one_of (cs : string) : regex :=
  Chr (fun c => existsb (Ascii.eqb c) (Str.chars cs)).

End Re.

Import Re.

(** ** Python's [int()] and [float()] on strings *)

Module Num.

Definition digit_val (c : ascii) : Z := Z.of_nat (Str.code c) - 48.

(** A run of digits, single underscores allowed between two digits:
    its value, the number of digits, and what follows. *)
Fixpoint read_digits (acc : Z) (n : nat) (l : list ascii)
  : Z * nat * list ascii :=
  match l with
  | c :: l' =>
      if Str.is_digit c then read_digits (acc * 10 + digit_val c) (S n) l'
      else if Ascii.eqb c "_" && (0 <? n)%nat then
        match l' with
        | c' :: l'' =>
            if Str.is_digit c'
            then read_digits (acc * 10 + digit_val c') (S n) l''
            else (acc, n, l)
        | [] => (acc, n, l)
        end
      else (acc, n, l)
  | [] => (acc, n, l)
  end.

Definition read_sign (l : list ascii) : bool * list ascii :=
  match l with
  | "-"%char :: l' => (true, l')
  | "+"%char :: l' => (false, l')
  | _ => (false, l)
  end.

Definition signed (neg : bool) (z : Z) : Z := if neg then (- z)%Z else z.

(** [int(s)]; [None] is [ValueError] *)
Definition py_int (s : string) : option Z :=
  let '(neg, l) := read_sign (Str.strip_l (Str.chars s)) in
  match read_digits 0 0 l with
  | (v, S _, []) => Some (signed neg v)
  | _ => None
  end.

Definition pow10 (e : Z) : Q :=
  if (0 <=? e)%Z then inject_Z (10 ^ e) else / inject_Z (10 ^ (- e)).

Definition read_exponent (l : list ascii) : option Z :=
  match l with
  | [] => Some 0%Z
  | c :: l' =>
      if Ascii.eqb c "e" || Ascii.eqb c "E" then
        let '(neg, l'') := read_sign l' in
        match read_digits 0 0 l'' with
        | (v, S _, []) => Some (signed neg v)
        | _ => None
        end
      else None
  end.

(** [float(s)] for the decimal spellings, as an exact rational; [None] is
    [ValueError]. The spellings of the non-finite floats ([inf], [nan])
    have no rational value and are unparsable here. *)
Definition py_float (s : string) : option Q :=
  let '(neg, l) := read_sign (Str.strip_l (Str.chars s)) in
  let '(ip, ni, l1) := read_digits 0 0 l in
  let '(fp, nf, l2) :=
    match l1 with
    | "."%char :: l1' => read_digits 0 0 l1'
    | _ => (0%Z, O, l1)
    end in
  match (ni + nf)%nat, read_exponent l2 with
  | S _, Some e =>
      let m := (inject_Z ip + inject_Z fp * pow10 (- Z.of_nat nf))%Q in
      Some (Qred ((if neg then - m else m) * pow10 e))%Q
  | _, _ => None
  end.

End Num.

(** ** Entity, number and domain extraction *)

(** [\b...\b] around a pattern *)
Definition bounded (r : regex) : regex := cat [WordB; r; WordB].

(** The five pattern tables of [extract_entities_strict], in source order. *)
Definition people_patterns : list (string * regex) :=
  [ ("trump", bounded (cat [opt (Grp 1 (cat [lit "donald"; plus s])); lit "trump"]));
    ("biden", bounded (cat [opt (Grp 1 (cat [lit "joe"; plus s])); lit "biden"]));
    ("harris", bounded (cat [opt (Grp 1 (cat [lit "kamala"; plus s])); lit "harris"]));
    ("musk", bounded (cat [opt (Grp 1 (cat [lit "elon"; plus s])); lit "musk"]));
    ("putin", bounded (cat [opt (Grp 1 (cat [lit "vladimir"; plus s])); lit "putin"]));
    ("xi jinping", bounded (cat [lit "xi"; plus s; lit "jinping"]));
    ("taylor swift", bounded (cat [lit "taylor"; plus s; lit "swift"]));
    ("netanyahu", bounded (lit "netanyahu")) ].

Definition crypto_patterns : list (string * regex) :=
  [ ("bitcoin", bounded (lit "bitcoin"));
    ("btc", bounded (lit "btc"));
    ("ethereum", bounded (lit "ethereum"));
    ("eth", cat [bounded (lit "eth");
                 NLook (cat [Star s; Grp 1 (words ["flipped"; "flip"])])]);
    ("solana", bounded (lit "solana"));
    ("sol", cat [bounded (lit "sol"); NLook (cat [Star s; w])]);
    ("dogecoin", bounded (lit "dogecoin"));
    ("doge", bounded (lit "doge")) ].

Definition org_patterns : list (string * regex) :=
  [ ("federal reserve", bounded (cat [lit "federal"; plus s; lit "reserve"]));
    ("fed", cat [bounded (lit "fed");
                 NLook (cat [Star s; Grp 1 (words ["cup"; "ex"])])]);
    ("openai", bounded (lit "openai"));
    ("tesla", bounded (lit "tesla"));
    ("apple", cat [bounded (lit "apple");
                   NLook (cat [Star s; Grp 1 (words ["music"; "tv"])])]);
    ("microsoft", bounded (lit "microsoft"));
    ("google", bounded (lit "google"));
    ("meta", cat [bounded (lit "meta"); NLook (cat [Star s; w])]);
    ("netflix", bounded (lit "netflix")) ].

Definition places : list (string * regex) :=
  [ ("usa", bounded (Grp 1 (alt [lit "usa";
                                 cat [lit "united"; plus s; lit "states"];
                                 lit "america"])));
    ("china", bounded (lit "china"));
    ("russia", bounded (lit "russia"));
    ("ukraine", bounded (lit "ukraine"));
    ("israel", bounded (lit "israel"));
    ("iran", bounded (lit "iran"));
    ("germany", bounded (lit "germany"));
    ("france", bounded (lit "france"));
    ("netherlands", bounded (lit "netherlands"));
    ("norway", bounded (lit "norway")) ].

Definition events : list (string * regex) :=
  [ ("election", bounded (lit "election"));
    ("recession", bounded (lit "recession"));
    ("inflation", bounded (lit "inflation"));
    ("unemployment", bounded (lit "unemployment"));
    ("interest rate", bounded (cat [lit "interest"; plus s; lit "rate"])) ].

(** One [for entity, pattern in table] loop over the running set *)
Definition add_matching (text_lower : string) (table : list (string * regex))
    (entities : gset string) : gset string :=
  foldl (fun acc ep => if search (snd ep) text_lower
                       then acc ∪ {[ fst ep ]} else acc)
        entities table.

Definition extract_entities_strict (text : string) : gset string :=
  let text_lower := Str.lower text in
  let entities := (∅ : gset string) in
  let entities := add_matching text_lower people_patterns entities in
  let entities := add_matching text_lower crypto_patterns entities in
  let entities := add_matching text_lower org_patterns entities in
  let entities := add_matching text_lower places entities in
  let entities := add_matching text_lower events entities in
  entities.

(** The numeric literal [\d+(?:,\d+)*(?:\.\d+)?] of the dollar and price
    patterns *)
Definition amount : regex :=
  cat [plus d; Star (cat [ch ","; plus d]); opt (cat [ch "."; plus d])].

Definition years_re : regex :=
  cat [WordB; Grp 1 (cat [lit "202"; Chr (Str.between 48 57)]); WordB].
Definition percentages_re : regex :=
  cat [WordB; Grp 1 (cat [plus d; opt (cat [ch "."; plus d])]); Star s; ch "%"].
Definition dollars_re : regex :=
  cat [ch "$"; Grp 1 amount; Star s; Grp 2 (opt (one_of "kmb"))].
Definition bps_re : regex :=
  cat [WordB; Grp 1 (plus d); Star s; lit "bp"; opt (ch "s"); WordB].
Definition prices_re : regex :=
  cat [WordB; Grp 1 amount; WordB].

(** The price-level filter: [float(price.replace(',', '')) >= 10], a
    value that does not parse being skipped *)
Definition significant (price : string) : bool :=
  match Num.py_float (Str.replace "," "" price) with
  | Some val => Qle_bool 10 val
  | None => false
  end.

Definition extract_numbers_strict (text : string) : gset string :=
  let numbers := (∅ : gset string) in
  let years := findall1 years_re text in
  let numbers := numbers ∪ list_to_set years in
  let percentages := findall1 percentages_re text in
  let numbers := numbers ∪ list_to_set percentages in
  let dollars := findall2 dollars_re (Str.lower text) in
  let numbers :=
    foldl (fun acc '(amount, suffix) => acc ∪ {[ "$" +:+ amount +:+ suffix ]})
          numbers dollars in
  let bps := findall1 bps_re (Str.lower text) in
  let numbers := foldl (fun acc bp => acc ∪ {[ bp +:+ "bps" ]}) numbers bps in
  let prices := findall1 prices_re text in
  let numbers :=
    foldl (fun acc price => if significant price then acc ∪ {[ price ]} else acc)
          numbers prices in
  numbers.

(** The keyword rules of [classify_domain_strict] *)
Definition politics_re : regex :=
  bounded (Grp 1 (words
    ["election"; "president"; "presidential"; "trump"; "biden"; "harris";
     "mayor"; "governor"; "senate"; "congress"; "vote"; "political"; "party";
     "democrat"; "republican"; "prime minister"])).
Definition macro_re : regex :=
  bounded (Grp 1 (words
    ["federal reserve"; "fomc"; "fed"; "interest rate"; "inflation";
     "unemployment"; "gdp"; "recession"; "monetary policy"; "basis points";
     "bps"])).
Definition crypto_re : regex :=
  bounded (Grp 1 (words
    ["bitcoin"; "btc"; "ethereum"; "eth"; "crypto"; "blockchain"; "solana";
     "sol"; "dogecoin"; "doge"; "defi"; "nft"])).
Definition finance_re : regex :=
  bounded (Grp 1 (words
    ["s&p"; "spx"; "nasdaq"; "dow"; "stock market"; "index"; "tesla"; "apple";
     "microsoft"; "amazon"; "earnings"; "revenue"; "market cap"])).
Definition tech_re : regex :=
  bounded (Grp 1 (words
    ["openai"; "gpt"; "ai"; "artificial intelligence"; "iphone"; "android";
     "app"; "software"; "tech"; "google"; "apple"; "microsoft"])).
Definition sports_re : regex :=
  bounded (Grp 1 (words
    ["nfl"; "nba"; "mlb"; "nhl"; "soccer"; "football"; "basketball";
     "baseball"; "hockey"; "championship"; "super bowl"; "world cup";
     "olympics"])).
Definition entertainment_re : regex :=
  bounded (Grp 1 (words
    ["taylor swift"; "album"; "billboard"; "rotten tomatoes"; "movie";
     "oscar"; "grammy"; "netflix"; "box office"; "streaming"])).

Definition classify_domain_strict (text : string) : string :=
  let t := Str.lower text in
  if search politics_re t then "politics"
  else if search macro_re t then "macro"
  else if search crypto_re t then "crypto"
  else if search finance_re t then "finance"
  else if search tech_re t then "tech"
  else if search sports_re t then "sports"
  else if search entertainment_re t then "entertainment"
  else "other".

(** ** Data model *)

(** A value read by [json.load] *)
#[warnings="-register-all"]
Inductive jval : Type :=
| JNull
| JBool (b : bool)
| JNum (q : Q)
| JStr (s : string)
| JArr (l : list jval)
| JObj (l : list (string * jval)).

(** Python truthiness of a JSON value *)
Definition truthy (v : jval) : bool :=
  match v with
  | JNull => false
  | JBool b => b
  | JNum q => negb (Qeq_bool q 0)
  | JStr s => negb (String.eqb s "")
  | JArr l => negb (bool_decide (length l = 0%nat))
  | JObj l => negb (bool_decide (length l = 0%nat))
  end.

(** Uncaught exceptions *)
Inductive exn : Type := AttributeError | TypeError | IndexError.

Inductive result (A : Type) : Type :=
| Ok (a : A)
| Err (e : exn).
Arguments Ok {A} a.
Arguments Err {A} e.

#[global] Instance result_ret : MRet result := fun A a => Ok a.
#[global] Instance result_bind : MBind result := fun A B f m =>
  match m with
  | Ok a => f a
  | Err e => Err e
  end.
#[global] Instance result_fmap : FMap result := fun A B f m =>
  match m with
  | Ok a => Ok (f a)
  | Err e => Err e
  end.

(** A [datetime]: whether it carries a UTC offset, and the instant (or,
    without offset, the wall-clock reading) in microseconds. *)
Record datetime : Type := DateTime {
  aware : bool;
  micros : Z
}.

(** [(a - b).total_seconds()]; mixing a naive and an aware value raises *)
Definition total_seconds_between (a b : datetime) : result Q :=
  if Bool.eqb (aware a) (aware b)
  then Ok ((micros a - micros b) # 1000000)%Q
  else Err TypeError.

(** [abs((a - b).total_seconds()) / 3600] *)
Definition hours_apart (a b : datetime) : result Q :=
  secs ← total_seconds_between a b; Ok (Qabs secs / 3600)%Q.

(** The record [load_and_preprocess] builds for a market. The [prices] and
    [outcomes] entries are carried along by the source and read by no
    function of the matcher; they are left out. *)
Record market : Type := Market {
  idx : nat;
  market_id : jval;
  title : string;
  text : string;
  text_norm : string;
  end_dt : option datetime;
  numbers : gset string;
  entities : gset string;
  domain : string
}.

(** An entry of the match list *)
Record matched : Type := Matched {
  kalshi_idx : nat;
  poly_idx : nat;
  kalshi_id : jval;
  poly_id : jval;
  kalshi_title : string;
  poly_title : string;
  score : Q;
  match_domain : string;
  time_diff_hours : option Q;
  entity_overlap : Q;
  number_overlap : Q;
  shared_entities : list string;
  shared_numbers : list string
}.

(** What the matcher takes from outside this repository:
    [datetime.fromisoformat] ([None] when it raises), rapidfuzz's
    [utils.default_process], and [process.extract] with the scorer
    [fuzz.token_set_ratio] and [limit=1], given the query, the choices and
    the cutoff ([None] when it raises); a result is a choice, its score and
    its index. *)
Record External : Type := {
  fromisoformat : string -> option datetime;
  default_process : string -> string;
  process_extract : string -> list string -> Q -> option (list (string * Q * nat))
}.

(** ** Numbers as Python computes them *)

Definition Qltb (a b : Q) : bool := negb (Qle_bool b a).

#[global] Instance Qeq_decision (a b : Q) : Decision (a == b)%Q := Qeq_dec a b.

(** [max(a, b)] *)
Definition py_max (a b : Q) : Q := if Qltb a b then b else a.

Definition round_half_even (q : Q) : Z :=
  let f := Qfloor q in
  match (q - inject_Z f ?= 1 # 2)%Q with
  | Lt => f
  | Gt => (f + 1)%Z
  | Eq => if Z.even f then f else (f + 1)%Z
  end.

(** [round(q, ndigits)] *)
Definition py_round (q : Q) (ndigits : nat) : Q :=
  let scale := inject_Z (10 ^ Z.of_nat ndigits) in
  Qred (inject_Z (round_half_even (q * scale)) / scale)%Q.

(** [len(a) / len(b) if b else 0] *)
Definition ratio (a b : gset string) : Q :=
  if bool_decide (b = ∅) then 0%Q
  else (Z.of_nat (size a) # Pos.of_nat (size b))%Q.

Definition str_le (a b : string) : Prop := String.leb a b = true.
#[global] Instance str_le_dec a b : Decision (str_le a b).
Proof. unfold str_le. apply _. Defined.

(** [sorted(list(s))] *)
Definition sorted (s : gset string) : list string :=
  merge_sort str_le (elements s).

(** ** The quality gate *)

Definition opposite_pairs : list (string * string) :=
  [ ("above", "below");
    ("over", "under");
    ("more than", "less than");
    ("increase", "decrease");
    ("rise", "fall");
    ("up", "down");
    ("win", "lose");
    ("outperform", "underperform");
    ("cut", "hike");
    ("emergency", "scheduled") ].

(** The test of the loop body: one text has one word, the other text the
    other word *)
Definition opposed (k_lower p_lower : string) (pair : string * string) : bool :=
  let '(word1, word2) := pair in
  (Str.contains word1 k_lower && Str.contains word2 p_lower)
  || (Str.contains word2 k_lower && Str.contains word1 p_lower).

(** [(\d+)\s*bps?] *)
Definition bps_amount_re : regex :=
  cat [Grp 1 (plus d); Star s; lit "bp"; opt (ch "s")].

Definition bps_amounts (lowered : string) : list string :=
  findall1 bps_amount_re lowered.

Definition semantic_similarity_check (k_text p_text : string) : bool :=
  let k_lower := Str.lower k_text in
  let p_lower := Str.lower p_text in
  if existsb (opposed k_lower p_lower) opposite_pairs then false
  else
    let k_bps := bps_amounts k_lower in
    let p_bps := bps_amounts p_lower in
    if negb (bool_decide (k_bps = [])) && negb (bool_decide (p_bps = [])) then
      let k_amounts : gset string := list_to_set k_bps in
      let p_amounts : gset string := list_to_set p_bps in
      if bool_decide (k_amounts ∩ p_amounts = ∅) then false else true
    else true.

Definition political_entities : gset string :=
  {[ "trump"; "biden"; "harris"; "election"; "president" ]}.
Definition crypto_entities : gset string :=
  {[ "bitcoin"; "btc"; "ethereum"; "eth"; "solana"; "sol"; "dogecoin"; "doge" ]}.
Definition macro_entities : gset string :=
  {[ "federal reserve"; "fed"; "interest rate"; "unemployment"; "inflation" ]}.

(** The body of the two [for num in ...] loops: the value a token adds to
    [k_vals] or [p_vals], if any *)
Definition reparse (num : string) : option Q :=
  if Str.contains "bps" num then
    inject_Z <$> Num.py_int (Str.replace "bps" "" num)
  else if Str.contains "%" num then
    Num.py_float (Str.replace "%" "" num)
  else None.

Definition reparsed (nums : gset string) : list Q :=
  omap reparse (elements nums).

(** [abs(k_val - p_val) <= max(50, k_val * 0.2)] *)
Definition close (k_val p_val : Q) : bool :=
  Qle_bool (Qabs (k_val - p_val)) (py_max 50 (k_val * (1 # 5)))%Q.

(** The last rule of [is_high_quality_match] ("if both have numbers, they
    should be related"): [false] where the source returns [False]. *)
Definition numbers_related (k p : market) (score : Q) : bool :=
  if negb (bool_decide (numbers k = ∅)) && negb (bool_decide (numbers p = ∅)) then
    if bool_decide (numbers k ∩ numbers p = ∅) then
      let k_vals := reparsed (numbers k) in
      let p_vals := reparsed (numbers p) in
      let close_match :=
        existsb (fun k_val => existsb (close k_val) p_vals) k_vals in
      if negb close_match && Qltb score 95 then false else true
    else true
  else true.

(** The domain-specific rule: [false] where the source returns [False]. *)
Definition domain_rule (k p : market) : bool :=
  if String.eqb (domain k) "politics" then
    negb (bool_decide (entities k ∩ entities p ∩ political_entities = ∅))
  else if String.eqb (domain k) "crypto" then
    let shared_crypto := entities k ∩ entities p ∩ crypto_entities in
    negb (bool_decide (shared_crypto = ∅))
  else if String.eqb (domain k) "macro" then
    negb (bool_decide (entities k ∩ entities p ∩ macro_entities = ∅))
  else true.

Definition is_high_quality_match (k p : market) (score : Q) : bool :=
  if Qltb score 80 then false
  else
    let entity_intersection := entities k ∩ entities p in
    if bool_decide (entity_intersection = ∅) then false
    else
      let entity_union := entities k ∪ entities p in
      let entity_overlap_ratio := ratio entity_intersection entity_union in
      if Qltb entity_overlap_ratio (3 # 10) then false
      else if negb (semantic_similarity_check (text k) (text p)) then false
      else if negb (domain_rule k p) then false
      else if negb (numbers_related k p score) then false
      else true.

(** ** The deduplicator *)

Definition quality_score (m : matched) : Q :=
  (score m + entity_overlap m * 30 + number_overlap m * 20)%Q.

(** [list.sort(key=key, reverse=True)]: the stable sort into descending
    order of the keys. An element is placed after the elements whose key
    is strictly greater and before all others, so that elements with equal
    keys keep their order. *)
Section PySort.
Context {A : Type} (key : A -> Q).

Fixpoint insert_desc (x : A) (l : list A) : list A :=
  match l with
  | [] => [x]
  | y :: l' =>
      if Qltb (key x) (key y) then y :: insert_desc x l' else x :: l
  end.

Definition sort_desc (l : list A) : list A := foldr insert_desc [] l.

(** Descending order of the keys *)
Definition desc (a b : A) : Prop := (key b <= key a)%Q.
End PySort.

(** The [for match in matches] loop, on the two sets and the output list *)
Fixpoint dedup_loop (matches : list matched) (used_kalshi used_poly : gset nat)
    (final_matches : list matched) : list matched :=
  match matches with
  | [] => final_matches
  | m :: matches' =>
      let k_idx := kalshi_idx m in
      let p_idx := poly_idx m in
      if bool_decide (k_idx ∉ used_kalshi) && bool_decide (p_idx ∉ used_poly)
      then dedup_loop matches' (used_kalshi ∪ {[ k_idx ]})
                      (used_poly ∪ {[ p_idx ]}) (final_matches ++ [m])
      else dedup_loop matches' used_kalshi used_poly final_matches
  end.

Definition deduplicate_matches (matches : list matched) : list matched :=
  let matches := sort_desc quality_score matches in
  dedup_loop matches ∅ ∅ [].

(** ** The writer *)

Record criteria : Type := Criteria {
  min_text_similarity : Z;
  min_entity_overlap_ratio : Q;
  strict_entity_matching : bool;
  semantic_opposite_filtering : bool;
  domain_exact_match : bool;
  criteria_max_time_diff_hours : Z
}.

(** The document [save_matches] hands to [json.dump] *)
Record artifact : Type := Artifact {
  generated_at : string;
  total_matches : nat;
  matching_criteria : criteria;
  matches : list matched
}.

(** [now] is [datetime.now(timezone.utc).isoformat()], read from the clock
    at the call. *)
Definition save_matches (now : string) (ms : list matched) : artifact :=
  {| generated_at := now;
     total_matches := length ms;
     matching_criteria :=
       {| min_text_similarity := 80;
          min_entity_overlap_ratio := 3 # 10;
          strict_entity_matching := true;
          semantic_opposite_filtering := true;
          domain_exact_match := true;
          criteria_max_time_diff_hours := 24 |};
     matches := ms |}.

(** ** The normaliser *)

(** [m.get(key, '').strip()]: a value that is not a string has no [strip] *)
Definition get_stripped (m : gmap string jval) (key : string) : result string :=
  match m !! key with
  | None => Ok (Str.strip "")
  | Some (JStr v) => Ok (Str.strip v)
  | Some _ => Err AttributeError
  end.

(** [m.get(key)] *)
Definition get (m : gmap string jval) (key : string) : jval :=
  default JNull (m !! key).

(** [a or b] *)
Definition py_or (a b : jval) : jval := if truthy a then a else b.

(** The end-date block: every exception inside it is swallowed, so a value
    that is not a string, or does not parse, leaves [end_dt] at [None]. *)
Definition parse_end_date (ext : External) (end_date : jval) : option datetime :=
  if truthy end_date then
    match end_date with
    | JStr v => fromisoformat ext (Str.replace "Z" "+00:00" v)
    | _ => None
    end
  else None.

(** The dictionary the Kalshi loop appends *)
Definition kalshi_market (ext : External) (i : nat) (m : gmap string jval)
    (title desc : string) : market :=
  let text := Str.strip (title +:+ ". " +:+ desc) in
  let end_dt := parse_end_date ext (py_or (get m "endDate") (get m "close_time")) in
  let entities := extract_entities_strict text in
  let numbers := extract_numbers_strict text in
  let domain := classify_domain_strict text in
  {| idx := i;
     market_id := default (JStr "") (m !! "conditionId");
     title := title;
     text := text;
     text_norm := default_process ext text;
     end_dt := end_dt;
     numbers := numbers;
     entities := entities;
     domain := domain |}.

(** The body of the Kalshi loop: [None] is [continue] *)
Definition kalshi_record (ext : External) (i : nat) (m : gmap string jval)
  : result (option market) :=
  title ← get_stripped m "title";
  desc ← get_stripped m "description";
  if String.eqb title "" then Ok None
  else Ok (Some (kalshi_market ext i m title desc)).

(** The dictionary the Polymarket loop appends *)
Definition poly_market (ext : External) (i : nat) (m : gmap string jval)
    (question desc : string) : market :=
  let text := Str.strip (question +:+ ". " +:+ desc) in
  let end_dt := parse_end_date ext (get m "endDate") in
  let entities := extract_entities_strict text in
  let numbers := extract_numbers_strict text in
  let domain := classify_domain_strict text in
  {| idx := i;
     market_id := default (JStr "") (m !! "id");
     title := question;
     text := text;
     text_norm := default_process ext text;
     end_dt := end_dt;
     numbers := numbers;
     entities := entities;
     domain := domain |}.

(** The body of the Polymarket loop *)
Definition poly_record (ext : External) (i : nat) (m : gmap string jval)
  : result (option market) :=
  question ← get_stripped m "question";
  desc ← get_stripped m "description";
  if String.eqb question "" then Ok None
  else Ok (Some (poly_market ext i m question desc)).

(** [for i, m in enumerate(raw)], appending to the list built so far *)
Fixpoint load_loop (record : nat -> gmap string jval -> result (option market))
    (i : nat) (raw : list (gmap string jval)) (acc : list market)
  : result (list market) :=
  match raw with
  | [] => Ok acc
  | m :: raw' =>
      r ← record i m;
      match r with
      | Some mk => load_loop record (S i) raw' (acc ++ [mk])
      | None => load_loop record (S i) raw' acc
      end
  end.

(** [load_and_preprocess], from the two parsed JSON arrays *)
Definition load_and_preprocess (ext : External)
    (kalshi_raw poly_raw : list (gmap string jval))
  : result (list market * list market) :=
  kalshi ← load_loop (kalshi_record ext) 0 kalshi_raw [];
  poly ← load_loop (poly_record ext) 0 poly_raw [];
  Ok (kalshi, poly).

(** ** The candidate search *)

(** [poly_by_domain], a [defaultdict(list)] *)
Definition group_by_domain (poly : list market) : gmap string (list market) :=
  foldl (fun acc p => <[ domain p := default [] (acc !! domain p) ++ [p] ]> acc)
        ∅ poly.

(** The time pre-filter for a left record whose end time [k_end] is known *)
Fixpoint time_filter (k_end : datetime) (max_time_diff_hours : Q)
    (candidates : list market) (time_filtered : list market)
  : result (list market) :=
  match candidates with
  | [] => Ok time_filtered
  | p :: candidates' =>
      match end_dt p with
      | Some p_end =>
          time_diff ← hours_apart k_end p_end;
          if Qle_bool time_diff max_time_diff_hours
          then time_filter k_end max_time_diff_hours candidates' (time_filtered ++ [p])
          else time_filter k_end max_time_diff_hours candidates' time_filtered
      | None =>
          time_filter k_end max_time_diff_hours candidates' (time_filtered ++ [p])
      end
  end.

(** [round(time_diff, 1) if time_diff else None] *)
Definition emitted_time_diff (time_diff : option Q) : option Q :=
  match time_diff with
  | Some t => if Qeq_bool t 0 then None else Some (py_round t 1)
  | None => None
  end.

(** The dictionary appended to [matches] *)
Definition build_match (k p : market) (score : Q) (time_diff : option Q)
  : matched :=
  let entity_intersection := entities k ∩ entities p in
  let entity_union := entities k ∪ entities p in
  let entity_score := ratio entity_intersection entity_union in
  let number_intersection := numbers k ∩ numbers p in
  let number_union := numbers k ∪ numbers p in
  let number_score := ratio number_intersection number_union in
  {| kalshi_idx := idx k;
     poly_idx := idx p;
     kalshi_id := market_id k;
     poly_id := market_id p;
     kalshi_title := title k;
     poly_title := title p;
     score := score;
     match_domain := domain k;
     time_diff_hours := emitted_time_diff time_diff;
     entity_overlap := py_round entity_score 3;
     number_overlap := py_round number_score 3;
     shared_entities := sorted entity_intersection;
     shared_numbers := sorted number_intersection |}.

(** The final time check: the difference when both ends are known *)
Definition final_time_diff (k p : market) : result (option Q) :=
  match end_dt k, end_dt p with
  | Some k_end, Some p_end => Some <$> hours_apart k_end p_end
  | _, _ => Ok None
  end.

(** [for text, score, idx in results] *)
Fixpoint process_results (k : market) (candidates : list market)
    (max_time_diff_hours : Q) (results : list (string * Q * nat))
    (matches : list matched) : result (list matched) :=
  match results with
  | [] => Ok matches
  | (_, score, i) :: results' =>
      match candidates !! i with
      | None => Err IndexError
      | Some p =>
          if negb (is_high_quality_match k p score)
          then process_results k candidates max_time_diff_hours results' matches
          else
            time_diff ← final_time_diff k p;
            if match time_diff with
               | Some t => Qltb max_time_diff_hours t
               | None => false
               end
            then process_results k candidates max_time_diff_hours results' matches
            else process_results k candidates max_time_diff_hours results'
                   (matches ++ [build_match k p score time_diff])
      end
  end.

(** [for k in kalshi] *)
Fixpoint find_loop (ext : External) (poly_by_domain : gmap string (list market))
    (threshold max_time_diff_hours : Q) (kalshi : list market)
    (matches : list matched) : result (list matched) :=
  match kalshi with
  | [] => Ok matches
  | k :: kalshi' =>
      let continue := find_loop ext poly_by_domain threshold max_time_diff_hours kalshi' in
      let candidates := default [] (poly_by_domain !! domain k) in
      if bool_decide (candidates = []) then continue matches
      else
        candidates ←
          match end_dt k with
          | Some k_end => time_filter k_end max_time_diff_hours candidates []
          | None => Ok candidates
          end;
        if bool_decide (candidates = []) then continue matches
        else
          let candidate_texts := map text_norm candidates in
          match process_extract ext (text_norm k) candidate_texts threshold with
          | None => continue matches
          | Some results =>
              matches ← process_results k candidates max_time_diff_hours results matches;
              continue matches
          end
  end.

Definition find_matches (ext : External) (kalshi poly : list market)
    (threshold max_time_diff_hours : Q) : result (list matched) :=
  find_loop ext (group_by_domain poly) threshold max_time_diff_hours kalshi [].

(** ** The run *)

(** [main], from the two parsed input arrays and the clock reading of
    [save_matches]; [None] when it returns without writing. *)
Definition main (ext : External) (now : string)
    (kalshi_raw poly_raw : list (gmap string jval)) : result (option artifact) :=
  '(kalshi, poly) ← load_and_preprocess ext kalshi_raw poly_raw;
  if bool_decide (length kalshi = 0%nat) || bool_decide (length poly = 0%nat)
  then Ok None
  else
    matches ← find_matches ext kalshi poly 80 24;
    let final_matches := deduplicate_matches matches in
    Ok (Some (save_matches now final_matches)).

(** ** The specification's reading of the deduplicator and the classifier

    These definitions follow the wording of the specification; the
    theorems below compare them with the definitions taken from the code. *)

(** "consumed by a previously accepted candidate": an accepted candidate
    has the same left identifier, or the same right identifier *)
Definition consumed (accepted : list matched) (m : matched) : bool :=
  existsb (fun a => (kalshi_idx a =? kalshi_idx m)%nat
                    || (poly_idx a =? poly_idx m)%nat) accepted.

(** "greedily walk the sorted list, accepting a candidate only if neither
    identifier has been consumed" *)
Fixpoint greedy_walk (sorted_matches accepted : list matched) : list matched :=
  match sorted_matches with
  | [] => accepted
  | m :: rest =>
      if consumed accepted m then greedy_walk rest accepted
      else greedy_walk rest (accepted ++ [m])
  end.

(** "no left_ref or right_ref value appears more than once across the
    whole sequence" *)
Definition injective_on_both_sides (ms : list matched) : Prop :=
  NoDup (map kalshi_idx ms) /\ NoDup (map poly_idx ms).

(** The loop invariant of [dedup_loop]: the two sets hold exactly the
    identifiers of the candidates accepted so far. *)
Definition tracks (used_kalshi used_poly : gset nat) (accepted : list matched)
  : Prop :=
  (forall i, i ∈ used_kalshi <-> i ∈ map kalshi_idx accepted)
  /\ (forall i, i ∈ used_poly <-> i ∈ map poly_idx accepted).

(** "a fixed, ordered list of seven keyword rules" *)
Definition domain_rules : list (string * regex) :=
  [ ("politics", politics_re); ("macro", macro_re); ("crypto", crypto_re);
    ("finance", finance_re); ("tech", tech_re); ("sports", sports_re);
    ("entertainment", entertainment_re) ].

(** "the first rule whose pattern matches the lower-cased text wins; if no
    rule matches, the tag is other" *)
Definition first_matching_rule (text : string) : string :=
  match List.find (fun rule => search (snd rule) (Str.lower text)) domain_rules with
  | Some (tag, _) => tag
  | None => "other"
  end.

(** ** The persisted MatchSet *)



(** ** Fields of a raw record *)

(** The field is present and its value is not a string *)
Definition not_a_string (field : option jval) : Prop :=
  exists v, field = Some v /\ forall s, v <> JStr s.

(** ** Provenance of a pooled candidate *)

(** The candidate was built from a left and a right record of the two
    corpora that passed the gate with some score, with the time difference
    of the final time check. *)
Definition pooled_from (kalshi poly : list market) (m : matched) : Prop :=
  exists k p sc td,
    k ∈ kalshi /\ p ∈ poly /\ is_high_quality_match k p sc = true
    /\ final_time_diff k p = Ok td /\ m = build_match k p sc td.

(** ** Facts of a pooled candidate *)

(** The candidate was built from a left and a right record of the same
    domain that passed the gate, and whose end times, when both are known,
    are no further apart than the window. *)
Definition pooled_pair (kalshi poly : list market) (mx : Q) (m : matched)
  : Prop :=
  exists k p sc td,
    k ∈ kalshi /\ p ∈ poly /\ domain p = domain k
    /\ is_high_quality_match k p sc = true
    /\ final_time_diff k p = Ok td
    /\ (forall t, td = Some t -> (t <= mx)%Q)
    /\ m = build_match k p sc td.

(** [process.extract] called with [limit=1] returns at most one result. *)
Definition at_most_one_result (ext : External) : Prop :=
  forall query choices cutoff results,
    process_extract ext query choices cutoff = Some results ->
    (length results <= 1)%nat.



(** Two candidates compete for a record: they have the same left
    identifier, or the same right identifier. *)
Definition conflict (a m : matched) : Prop :=
  kalshi_idx a = kalshi_idx m \/ poly_idx a = poly_idx m.

(** The five pattern tables of [extract_entities_strict], one after the
    other *)
Definition entity_tables : list (string * regex) :=
  people_patterns ++ crypto_patterns ++ org_patterns ++ places ++ events.

(** ** Patterns that need a kind of character *)

(** No character of the text is of the kind [q]. *)
Definition lacks (q : ascii -> bool) (l : list ascii) : Prop :=
  Forall (fun c => q c = false) l.

(** The pattern matches nowhere in a text that lacks [q], whatever is to
    follow the match. *)
Definition needs (q : ascii -> bool) (r : regex) : Prop :=
  forall (A : Type) (st : mstate) (k : mstate -> option A),
    lacks q (rest st) -> rmatch r st k = None.

(** An ASCII letter *)
Definition is_letter (c : ascii) : bool :=
  Str.is_upper c || Str.is_lower_alpha c.

(** ** Instances used by the worked examples *)

(** [utils.default_process]: lower-case, every character that is not a
    letter or a digit turned into a space, then trimmed *)
Definition fold_text (t : string) : string :=
  Str.strip (Str.str (map (fun c => if Str.is_digit c || Str.is_lower_alpha c
                                    then c else " "%char)
                          (Str.chars (Str.lower t)))).

(** The two timestamps of the examples, as [fromisoformat] reads them *)
Definition example_fromisoformat (v : string) : option datetime :=
  if String.eqb v "2024-11-05T12:00:00+00:00"
  then Some (DateTime true 1730808000000000)
  else if String.eqb v "2024-11-05T12:01:00+00:00"
  then Some (DateTime true 1730808060000000)
  else None.

(** A choice equal to the query scores 100, as under
    [fuzz.token_set_ratio]; the examples offer no other choice. *)
Definition example_extract (query : string) (choices : list string) (cutoff : Q)
  : option (list (string * Q * nat)) :=
  match list_find (String.eqb query) choices with
  | Some (i, c) => if Qle_bool cutoff 100 then Some [(c, 100%Q, i)] else Some []
  | None => Some []
  end.

Definition example_ext : External :=
  {| fromisoformat := example_fromisoformat;
     default_process := fold_text;
     process_extract := example_extract |}.

(** The raw records of the examples *)
Definition hike_raw : gmap string jval :=
  {[ "title" := JStr "Will the Fed announce a rate hike in December?" ]}.
Definition cut_raw : gmap string jval :=
  {[ "question" := JStr "Will the Fed announce a rate cut in December?" ]}.
Definition hike_k : market :=
  kalshi_market example_ext 0 hike_raw
    "Will the Fed announce a rate hike in December?" "".
Definition cut_p : market :=
  poly_market example_ext 0 cut_raw
    "Will the Fed announce a rate cut in December?" "".
Definition hike_p_raw : gmap string jval :=
  {[ "question" := JStr "Will the Fed announce a rate hike in December?" ]}.
Definition hike_p : market :=
  poly_market example_ext 1 hike_p_raw
    "Will the Fed announce a rate hike in December?" "".

Definition bps25_raw : gmap string jval :=
  {[ "title" := JStr "Will the Fed move rates by 25bps?" ]}.
Definition bps50_raw : gmap string jval :=
  {[ "question" := JStr "Will the Fed move rates by 50 bps?" ]}.
Definition bps25_k : market :=
  kalshi_market example_ext 0 bps25_raw "Will the Fed move rates by 25bps?" "".
Definition bps50_p : market :=
  poly_market example_ext 0 bps50_raw "Will the Fed move rates by 50 bps?" "".

(** Two markets on each side: the first pair ends one minute apart, the
    second pair at the same instant. *)
Definition fed_k_raw : gmap string jval :=
  {[ "title" := JStr "Will the Fed cut rates in 2024?";
     "close_time" := JStr "2024-11-05T12:00:00Z";
     "conditionId" := JStr "FED-24" ]}.
Definition fed_p_raw : gmap string jval :=
  {[ "question" := JStr "Will the Fed cut rates in 2024?";
     "endDate" := JStr "2024-11-05T12:01:00Z";
     "id" := JStr "5531" ]}.
Definition btc_k_raw : gmap string jval :=
  {[ "title" := JStr "Will Bitcoin close above $100k in 2024?";
     "close_time" := JStr "2024-11-05T12:00:00Z";
     "conditionId" := JStr "BTC-100K" ]}.
Definition btc_p_raw : gmap string jval :=
  {[ "question" := JStr "Will Bitcoin close above $100k in 2024?";
     "endDate" := JStr "2024-11-05T12:00:00Z";
     "id" := JStr "5532" ]}.
Definition fed_k : market :=
  kalshi_market example_ext 0 fed_k_raw "Will the Fed cut rates in 2024?" "".
Definition fed_p : market :=
  poly_market example_ext 0 fed_p_raw "Will the Fed cut rates in 2024?" "".
Definition btc_k : market :=
  kalshi_market example_ext 1 btc_k_raw "Will Bitcoin close above $100k in 2024?" "".
Definition btc_p : market :=
  poly_market example_ext 1 btc_p_raw "Will Bitcoin close above $100k in 2024?" "".

Definition noon : datetime := DateTime true 1730808000000000.
Definition minute_past_noon : datetime := DateTime true 1730808060000000.

(** The candidates [find_matches] pools on these corpora *)
Definition fed_match : matched :=
  build_match fed_k fed_p 100
    (Some (Qabs ((micros noon - micros minute_past_noon) # 1000000) / 3600)%Q).
Definition btc_match : matched :=
  build_match btc_k btc_p 100
    (Some (Qabs ((micros noon - micros noon) # 1000000) / 3600)%Q).

(** A raw record without identifier, and one without title *)
Definition no_id_raw : gmap string jval :=
  {[ "title" := JStr "Will the Fed cut rates in 2024?";
     "close_time" := JStr "2024-11-05T12:00:00Z" ]}.
Definition no_title_raw : gmap string jval :=
  {[ "description" := JStr "Resolves to Yes if the Fed cuts rates in 2024.";
     "conditionId" := JStr "FED-24" ]}.

(** A pooled candidate with the given indices and text score, both
    overlap ratios being 1 *)
Definition candidate (k_idx p_idx : nat) (sc : Q) : matched :=
  {| kalshi_idx := k_idx; poly_idx := p_idx;
     kalshi_id := JStr ""; poly_id := JStr "";
     kalshi_title := ""; poly_title := "";
     score := sc; match_domain := "other"; time_diff_hours := None;
     entity_overlap := 1; number_overlap := 1;
     shared_entities := []; shared_numbers := [] |}.

(** A right record whose end date carries no time and no offset: its end
    time is naive. *)
Definition dated_fromisoformat (v : string) : option datetime :=
  if String.eqb v "2024-11-05"
  then Some (DateTime false 1730764800000000)
  else example_fromisoformat v.
Definition dated_ext : External :=
  {| fromisoformat := dated_fromisoformat;
     default_process := fold_text;
     process_extract := example_extract |}.
Definition naive_p_raw : gmap string jval :=
  {[ "question" := JStr "Will the Fed cut rates in 2024?";
     "endDate" := JStr "2024-11-05";
     "id" := JStr "5533" ]}.
Definition naive_p : market :=
  poly_market dated_ext 0 naive_p_raw "Will the Fed cut rates in 2024?" "".

(** * Properties *)

(** ** Order on the rationals, as booleans *)

Lemma Qltb_lt (a b : Q) : Qltb a b = true <-> (a < b)%Q.
Proof.
  unfold Qltb. rewrite negb_true_iff. split.
  - intros H. apply Qnot_le_lt. intros Hle.
    apply Qle_bool_iff in Hle. congruence.
  - intros H. destruct (Qle_bool b a) eqn:E; [|reflexivity].
    apply Qle_bool_iff in E. exfalso. exact (Qlt_not_le _ _ H E).
Qed.

Lemma Qltb_ge (a b : Q) : Qltb a b = false <-> (b <= a)%Q.
Proof.
  unfold Qltb. rewrite negb_false_iff. apply Qle_bool_iff.
Qed.

(** ** The stable descending sort *)

Section PySortFacts.
Context {A : Type} (key : A -> Q).

Lemma insert_desc_perm (x : A) (l : list A) :
  insert_desc key x l ≡ₚ x :: l.
Proof.
  induction l as [|y l IH]; simpl; [reflexivity|].
  destruct (Qltb (key x) (key y)); [|reflexivity].
  rewrite IH. apply Permutation_swap.
Qed.

Lemma sort_desc_perm (l : list A) : sort_desc key l ≡ₚ l.
Proof.
  induction l as [|x l IH]; simpl; [reflexivity|].
  rewrite insert_desc_perm. by rewrite IH.
Qed.

Lemma insert_desc_sorted (x : A) (l : list A) :
  StronglySorted (desc key) l -> StronglySorted (desc key) (insert_desc key x l).
Proof.
  induction l as [|y l IH]; simpl; intros Hs.
  - repeat constructor.
  - apply StronglySorted_inv in Hs as [Hs Hall].
    destruct (Qltb (key x) (key y)) eqn:E.
    + constructor; [by apply IH|].
      rewrite insert_desc_perm. constructor; [|exact Hall].
      apply Qltb_lt in E. unfold desc. by apply Qlt_le_weak.
    + apply Qltb_ge in E. constructor.
      * by constructor.
      * constructor; [exact E|].
        eapply Forall_impl; [exact Hall|]. intros z Hz. unfold desc in *.
        eapply Qle_trans; eassumption.
Qed.

Lemma sort_desc_sorted (l : list A) : StronglySorted (desc key) (sort_desc key l).
Proof.
  induction l as [|x l IH]; simpl; [constructor|].
  by apply insert_desc_sorted.
Qed.


End PySortFacts.

(** ** The greedy walk *)

Lemma tracks_empty : tracks ∅ ∅ [].
Proof.
  split; intros i; simpl; split; intros H.
  - by apply not_elem_of_empty in H.
  - by apply not_elem_of_nil in H.
  - by apply not_elem_of_empty in H.
  - by apply not_elem_of_nil in H.
Qed.

Lemma tracks_accept uk up acc m :
  tracks uk up acc ->
  tracks (uk ∪ {[ kalshi_idx m ]}) (up ∪ {[ poly_idx m ]}) (acc ++ [m]).
Proof.
  intros [Hk Hp]. split; intros i; rewrite map_app; simpl.
  - by rewrite elem_of_union, elem_of_app, Hk, elem_of_singleton,
      list_elem_of_singleton.
  - by rewrite elem_of_union, elem_of_app, Hp, elem_of_singleton,
      list_elem_of_singleton.
Qed.

Lemma tracks_consumed uk up acc m :
  tracks uk up acc ->
  consumed acc m
  = negb (bool_decide (kalshi_idx m ∉ uk) && bool_decide (poly_idx m ∉ up)).
Proof.
  intros [Hk Hp]. unfold consumed.
  destruct (existsb _ acc) eqn:E.
  - apply existsb_exists in E as (a & Ha & Hor).
    apply list_elem_of_In in Ha.
    apply orb_true_iff in Hor as [H|H]; apply Nat.eqb_eq in H.
    + rewrite (bool_decide_eq_false_2 (kalshi_idx m ∉ uk)); [reflexivity|].
      intros Hn. apply Hn, Hk. rewrite <- H. by apply list_elem_of_fmap_2.
    + rewrite (bool_decide_eq_false_2 (poly_idx m ∉ up)).
      * by rewrite andb_false_r.
      * intros Hn. apply Hn, Hp. rewrite <- H. by apply list_elem_of_fmap_2.
  - symmetry. apply negb_false_iff, andb_true_iff.
    assert (Hno : forall a, a ∈ acc ->
              kalshi_idx a <> kalshi_idx m /\ poly_idx a <> poly_idx m).
    { intros a Ha. apply list_elem_of_In in Ha.
      destruct (decide (kalshi_idx a = kalshi_idx m)) as [e|n].
      - assert (existsb (fun a => (kalshi_idx a =? kalshi_idx m)%nat
                   || (poly_idx a =? poly_idx m)%nat) acc = true) as X.
        { apply existsb_exists. exists a. split; [done|].
          apply orb_true_iff. left. by apply Nat.eqb_eq. }
        congruence.
      - split; [done|]. intros e.
        assert (existsb (fun a => (kalshi_idx a =? kalshi_idx m)%nat
                   || (poly_idx a =? poly_idx m)%nat) acc = true) as X.
        { apply existsb_exists. exists a. split; [done|].
          apply orb_true_iff. right. by apply Nat.eqb_eq. }
        congruence. }
    split; apply bool_decide_eq_true_2; intros Hin.
    + apply Hk, list_elem_of_fmap in Hin as (a & Heq & Ha).
      destruct (Hno a Ha) as [X _]. congruence.
    + apply Hp, list_elem_of_fmap in Hin as (a & Heq & Ha).
      destruct (Hno a Ha) as [_ X]. congruence.
Qed.

Lemma dedup_loop_greedy l : forall uk up acc,
  tracks uk up acc -> dedup_loop l uk up acc = greedy_walk l acc.
Proof.
  induction l as [|m l IH]; intros uk up acc Ht; simpl; [reflexivity|].
  rewrite (tracks_consumed uk up acc m Ht).
  destruct (bool_decide (kalshi_idx m ∉ uk) && bool_decide (poly_idx m ∉ up));
    simpl.
  - apply IH. by apply tracks_accept.
  - by apply IH.
Qed.

(** The walk only ever appends candidates of the list it walks, in order. *)
Lemma greedy_walk_extends l : forall acc,
  exists picked, greedy_walk l acc = acc ++ picked /\ sublist picked l.
Proof.
  induction l as [|m l IH]; intros acc; simpl.
  - exists []. by rewrite app_nil_r.
  - destruct (consumed acc m).
    + destruct (IH acc) as [pk [-> Hs]]. exists pk. split; [done|].
      by apply sublist_cons.
    + destruct (IH (acc ++ [m])) as [pk [-> Hs]]. exists (m :: pk).
      split; [by rewrite <- app_assoc|]. by apply sublist_skip.
Qed.

Lemma consumed_false_fresh acc m :
  consumed acc m = false ->
  (kalshi_idx m ∉ map kalshi_idx acc) /\ (poly_idx m ∉ map poly_idx acc).
Proof.
  unfold consumed. intros E.
  assert (Hno : forall a, a ∈ acc ->
            (kalshi_idx a =? kalshi_idx m)%nat = false
            /\ (poly_idx a =? poly_idx m)%nat = false).
  { intros a Ha. apply orb_false_iff.
    destruct ((kalshi_idx a =? kalshi_idx m)%nat || (poly_idx a =? poly_idx m)%nat)
      eqn:E'; [|reflexivity].
    assert (existsb (fun a => (kalshi_idx a =? kalshi_idx m)%nat
              || (poly_idx a =? poly_idx m)%nat) acc = true) as X.
    { apply existsb_exists. exists a. split; [by apply list_elem_of_In|done]. }
    congruence. }
  split; intros Hin; apply list_elem_of_fmap in Hin as (a & Heq & Ha);
    destruct (Hno a Ha) as [X Y].
  - apply Nat.eqb_neq in X. congruence.
  - apply Nat.eqb_neq in Y. congruence.
Qed.

Lemma greedy_walk_injective l : forall acc,
  injective_on_both_sides acc -> injective_on_both_sides (greedy_walk l acc).
Proof.
  induction l as [|m l IH]; intros acc Hinj; simpl; [done|].
  destruct (consumed acc m) eqn:E; [by apply IH|].
  apply IH. destruct Hinj as [Hk Hp].
  destruct (consumed_false_fresh _ _ E) as [Fk Fp].
  split; rewrite map_app; simpl; apply NoDup_app; repeat split;
    try done; try (apply NoDup_singleton);
    intros i Hi Hi'; apply list_elem_of_singleton in Hi'; by subst.
Qed.

Lemma deduplicate_matches_walk (ms : list matched) :
  deduplicate_matches ms = greedy_walk (sort_desc quality_score ms) [].
Proof. unfold deduplicate_matches. apply dedup_loop_greedy, tracks_empty. Qed.

(** The output holds candidates of the input only. *)
Lemma deduplicate_matches_sub (ms : list matched) (m : matched) :
  m ∈ deduplicate_matches ms -> m ∈ ms.
Proof.
  rewrite deduplicate_matches_walk.
  destruct (greedy_walk_extends (sort_desc quality_score ms) []) as [pk [-> Hs]].
  simpl. intros Hm. rewrite <- (sort_desc_perm quality_score ms).
  by eapply elem_of_sublist.
Qed.

(** ** The deduplicator *)

(** C1. Injectivity: in the list [deduplicate_matches] returns, no left
    identifier ([kalshi_idx]) and no right identifier ([poly_idx]) occurs
    in more than one entry, whatever list of candidates it is given. *)
Theorem deduplicate_matches_injective (ms : list matched) :
  NoDup (map kalshi_idx (deduplicate_matches ms))
  /\ NoDup (map poly_idx (deduplicate_matches ms)).
Proof.
  rewrite deduplicate_matches_walk.
  apply (greedy_walk_injective _ []). split; constructor.
Qed.

(** Three candidates competing for two records on each side: the two of
    rank 145 come first, in their original order; the first of them takes
    left record 1 and right record 0, which rules out both others. *)
Lemma deduplicate_matches_example :
  sort_desc quality_score [candidate 0 0 90; candidate 1 0 95; candidate 1 1 95]
  = [candidate 1 0 95; candidate 1 1 95; candidate 0 0 90]
  /\ deduplicate_matches
       [candidate 0 0 90; candidate 1 0 95; candidate 1 1 95]
     = [candidate 1 0 95].
Proof. split; vm_compute; reflexivity. Qed.


(** ** Substrings under lower-casing *)

Lemma chars_str (l : list ascii) : Str.chars (Str.str l) = l.
Proof. apply list_ascii_of_string_of_list_ascii. Qed.

Lemma is_prefix_map (f : ascii -> ascii) (w : list ascii) : forall l,
  Str.is_prefix w l = true -> Str.is_prefix (map f w) (map f l) = true.
Proof.
  induction w as [|a w IH]; intros [|b l]; simpl; try done.
  intros H. apply andb_true_iff in H as [Hab Hw].
  apply Ascii.eqb_eq in Hab as ->. rewrite Ascii.eqb_refl. by apply IH.
Qed.

Lemma contains_l_map (f : ascii -> ascii) (w l : list ascii) :
  Str.contains_l w l = true -> Str.contains_l (map f w) (map f l) = true.
Proof.
  induction l as [|b l IH]; simpl; intros H.
  - apply orb_true_iff in H as [H|H]; [|done].
    apply (is_prefix_map f) in H. simpl in H. by rewrite H.
  - apply orb_true_iff in H as [H|H].
    + apply (is_prefix_map f) in H. simpl in H. by rewrite H.
    + rewrite (IH H). apply orb_true_r.
Qed.

(** A lower-case word found in a text is found in the lower-cased text. *)
Lemma contains_lower (word t : string) :
  Str.lower word = word ->
  Str.contains word t = true -> Str.contains word (Str.lower t) = true.
Proof.
  unfold Str.contains, Str.lower. intros Hw H.
  rewrite chars_str.
  apply (contains_l_map Str.lower_char) in H.
  fold (Str.lower_l (Str.chars word)) in H.
  assert (Hc : Str.lower_l (Str.chars word) = Str.chars word).
  { rewrite <- Hw at 2. unfold Str.lower. by rewrite chars_str. }
  by rewrite Hc in H.
Qed.

Lemma opposite_pairs_lower :
  Forall (fun pair => Str.lower (fst pair) = fst pair
                      /\ Str.lower (snd pair) = snd pair) opposite_pairs.
Proof. repeat constructor. Qed.

Lemma opposed_lower (k_text p_text : string) (pair : string * string) :
  pair ∈ opposite_pairs ->
  opposed k_text p_text pair = true ->
  opposed (Str.lower k_text) (Str.lower p_text) pair = true.
Proof.
  intros Hin H.
  destruct (proj1 (Forall_forall _ _) opposite_pairs_lower pair Hin) as [L1 L2].
  destruct pair as [word1 word2]. simpl in *. unfold opposed in *.
  apply orb_true_iff in H. apply orb_true_iff.
  destruct H as [H|H]; [left|right];
    apply andb_true_iff in H as [Ha Hb]; apply andb_true_iff;
    split; by apply contains_lower.
Qed.

(** ** What the gate rejects *)

Lemma semantic_check_opposed (k_text p_text : string) (pair : string * string) :
  pair ∈ opposite_pairs ->
  opposed k_text p_text pair = true ->
  semantic_similarity_check k_text p_text = false.
Proof.
  intros Hin H. unfold semantic_similarity_check.
  assert (E : existsb (opposed (Str.lower k_text) (Str.lower p_text))
                opposite_pairs = true).
  { apply existsb_exists. exists pair. split.
    - by apply list_elem_of_In.
    - by apply opposed_lower. }
  by rewrite E.
Qed.

Lemma semantic_check_bps (k_text p_text : string) :
  bps_amounts (Str.lower k_text) <> [] ->
  bps_amounts (Str.lower p_text) <> [] ->
  (forall a, a ∈ bps_amounts (Str.lower k_text) ->
             a ∉ bps_amounts (Str.lower p_text)) ->
  semantic_similarity_check k_text p_text = false.
Proof.
  intros Hk Hp Hdisj. unfold semantic_similarity_check.
  destruct (existsb _ opposite_pairs); [reflexivity|].
  rewrite (bool_decide_eq_false_2 _ Hk), (bool_decide_eq_false_2 _ Hp). simpl.
  rewrite bool_decide_eq_true_2; [reflexivity|].
  apply set_eq. intros a. rewrite elem_of_intersection, !elem_of_list_to_set.
  split; [|intros H; by apply not_elem_of_empty in H].
  intros [Ha Hb]. exfalso. exact (Hdisj a Ha Hb).
Qed.

Lemma gate_needs_semantic_check (k p : market) (sc : Q) :
  semantic_similarity_check (text k) (text p) = false ->
  is_high_quality_match k p sc = false.
Proof.
  intros H. unfold is_high_quality_match. rewrite H. simpl.
  repeat (match goal with |- (if ?c then _ else _) = _ => destruct c end;
          try reflexivity).
Qed.


(** ** Where the pooled candidates come from *)

Lemma group_by_domain_from (all : list market) :
  forall (poly : list market) (acc : gmap string (list market)),
  (forall (dm : string) (l : list market),
      acc !! dm = Some l -> forall p, p ∈ l -> p ∈ all) ->
  (forall p, p ∈ poly -> p ∈ all) ->
  forall (dm : string) (l : list market),
    foldl (fun acc p => <[ domain p := default [] (acc !! domain p) ++ [p] ]> acc)
          acc poly !! dm = Some l ->
    forall p, p ∈ l -> p ∈ all.
Proof.
  induction poly as [|q poly IH]; intros acc Hacc Hall dm l; simpl.
  - apply Hacc.
  - apply IH.
    + intros dm' l'. rewrite lookup_insert.
      destruct (decide (domain q = dm')) as [_|_]; [|apply Hacc].
      intros [= <-] p Hp. apply elem_of_app in Hp as [Hp|Hp].
      * destruct (acc !! domain q) as [l0|] eqn:E; simpl in Hp.
        -- by apply (Hacc _ _ E).
        -- by apply not_elem_of_nil in Hp.
      * apply list_elem_of_singleton in Hp as ->. apply Hall. by left.
    + intros p Hp. apply Hall. by right.
Qed.

Lemma candidates_from_poly (poly : list market) (dm : string) :
  forall p, p ∈ default [] (group_by_domain poly !! dm) -> p ∈ poly.
Proof.
  intros p Hp. destruct (group_by_domain poly !! dm) as [l|] eqn:E; simpl in Hp.
  - unfold group_by_domain in E.
    eapply (group_by_domain_from poly poly ∅); try eassumption.
    + intros dm' l'. by rewrite lookup_empty.
    + auto.
  - by apply not_elem_of_nil in Hp.
Qed.

Lemma time_filter_from (k_end : datetime) (mx : Q) :
  forall (cands acc r : list market),
  time_filter k_end mx cands acc = Ok r ->
  forall p, p ∈ r -> p ∈ cands \/ p ∈ acc.
Proof.
  induction cands as [|q cands IH]; intros acc r; simpl.
  - intros [= <-] p Hp. by right.
  - assert (Hkeep : forall r, time_filter k_end mx cands (acc ++ [q]) = Ok r ->
              forall p, p ∈ r -> p ∈ q :: cands \/ p ∈ acc).
    { intros r' H p Hp. destruct (IH _ _ H p Hp) as [X|X].
      - left. by right.
      - apply elem_of_app in X as [X|X]; [by right|].
        apply list_elem_of_singleton in X as ->. left. by left. }
    assert (Hdrop : forall r, time_filter k_end mx cands acc = Ok r ->
              forall p, p ∈ r -> p ∈ q :: cands \/ p ∈ acc).
    { intros r' H p Hp. destruct (IH _ _ H p Hp) as [X|X]; [|by right].
      left. by right. }
    destruct (end_dt q) as [p_end|]; [|apply Hkeep].
    destruct (hours_apart k_end p_end) as [t|e]; simpl; [|discriminate].
    destruct (Qle_bool t mx); [apply Hkeep|apply Hdrop].
Qed.

Lemma process_results_from (kalshi poly : list market) (k : market)
    (cands : list market) (mx : Q) :
  k ∈ kalshi -> (forall p, p ∈ cands -> p ∈ poly) ->
  forall results acc r,
    Forall (pooled_from kalshi poly) acc ->
    process_results k cands mx results acc = Ok r ->
    Forall (pooled_from kalshi poly) r.
Proof.
  intros Hk Hc. induction results as [|[[t sc] i] results IH];
    intros acc r Hacc; simpl.
  - by intros [= <-].
  - destruct (cands !! i) as [p|] eqn:Ei; [|discriminate].
    destruct (is_high_quality_match k p sc) eqn:Eg; simpl; [|by apply IH].
    destruct (final_time_diff k p) as [td|e] eqn:Et; simpl; [|discriminate].
    destruct (match td with Some t0 => Qltb mx t0 | None => false end);
      [by apply IH|].
    apply IH. apply Forall_app. split; [done|]. constructor; [|constructor].
    exists k, p, sc, td. repeat split; try done.
    apply Hc. by eapply list_elem_of_lookup_2.
Qed.

Lemma find_loop_from (ext : External) (all poly : list market) (th mx : Q) :
  forall kalshi acc r,
    (forall k, k ∈ kalshi -> k ∈ all) ->
    Forall (pooled_from all poly) acc ->
    find_loop ext (group_by_domain poly) th mx kalshi acc = Ok r ->
    Forall (pooled_from all poly) r.
Proof.
  induction kalshi as [|k kalshi IH]; intros acc r Hall Hacc; simpl.
  - by intros [= <-].
  - assert (Hrest : forall k', k' ∈ kalshi -> k' ∈ all).
    { intros k' Hk'. apply Hall. by right. }
    pose proof (candidates_from_poly poly (domain k)) as Hc.
    destruct (bool_decide (default [] (group_by_domain poly !! domain k) = []));
      [by apply IH|].
    set (cands := default [] (group_by_domain poly !! domain k)) in *.
    destruct (match end_dt k with
              | Some k_end => time_filter k_end mx cands []
              | None => Ok cands
              end) as [cands'|e] eqn:Ef; simpl; [|discriminate].
    assert (Hc' : forall p, p ∈ cands' -> p ∈ poly).
    { intros p Hp. destruct (end_dt k) as [k_end|].
      - destruct (time_filter_from _ _ _ _ _ Ef p Hp) as [X|X]; [by apply Hc|].
        by apply not_elem_of_nil in X.
      - injection Ef as <-. by apply Hc. }
    destruct (bool_decide (cands' = [])); [by apply IH|].
    destruct (process_extract ext (text_norm k) (map text_norm cands') th)
      as [results|]; [|by apply IH].
    destruct (process_results k cands' mx results acc) as [acc'|e] eqn:Ep;
      simpl; [|discriminate].
    apply IH; [done|].
    eapply process_results_from; try eassumption. apply Hall. by left.
Qed.

(** Every pooled candidate, and every candidate of the output, was built
    from a pair of records that passed the gate. *)
Lemma find_matches_from (ext : External) (kalshi poly : list market)
    (th mx : Q) (pooled : list matched) :
  find_matches ext kalshi poly th mx = Ok pooled ->
  forall m, m ∈ pooled \/ m ∈ deduplicate_matches pooled ->
            pooled_from kalshi poly m.
Proof.
  intros H m Hm.
  assert (Hall : Forall (pooled_from kalshi poly) pooled).
  { eapply (find_loop_from ext kalshi poly th mx kalshi []); eauto. }
  assert (Hin : m ∈ pooled).
  { destruct Hm as [Hm|Hm]; [done|]. by apply deduplicate_matches_sub. }
  by apply (proj1 (Forall_forall _ _) Hall).
Qed.

(** ** Indices identify the records of a corpus *)

Lemma same_field_same_record {B : Type} (field : market -> B)
    (l : list market) (a b : market) :
  NoDup (map field l) -> a ∈ l -> b ∈ l -> field a = field b -> a = b.
Proof.
  induction l as [|x l IH]; intros Hnd Ha Hb Heq.
  - by apply not_elem_of_nil in Ha.
  - simpl in Hnd. apply NoDup_cons in Hnd as [Hx Hnd].
    apply elem_of_cons in Ha as [->|Ha]; apply elem_of_cons in Hb as [->|Hb].
    + reflexivity.
    + exfalso. apply Hx. rewrite Heq. by apply list_elem_of_fmap_2.
    + exfalso. apply Hx. rewrite <- Heq. by apply list_elem_of_fmap_2.
    + by apply IH.
Qed.

Lemma load_loop_idx (record : nat -> gmap string jval -> result (option market)) :
  (forall i m mk, record i m = Ok (Some mk) -> idx mk = i) ->
  forall (raw : list (gmap string jval)) (i : nat) (acc r : list market),
    NoDup (map idx acc) -> (forall a, a ∈ acc -> (idx a < i)%nat) ->
    load_loop record i raw acc = Ok r -> NoDup (map idx r).
Proof.
  intros Hrec. induction raw as [|m raw IH]; intros i acc r Hnd Hlt; simpl.
  - by intros [= <-].
  - destruct (record i m) as [[mk|]|e] eqn:E; simpl; [| |discriminate].
    + apply IH.
      * rewrite map_app. simpl. apply NoDup_app. repeat split.
        -- done.
        -- intros j Hj Hj'. apply list_elem_of_singleton in Hj' as ->.
           apply list_elem_of_fmap in Hj as (a & Ha & Hin).
           specialize (Hlt a Hin). rewrite (Hrec _ _ _ E) in Ha. lia.
        -- apply NoDup_singleton.
      * intros a Ha. apply elem_of_app in Ha as [Ha|Ha].
        -- specialize (Hlt a Ha). lia.
        -- apply list_elem_of_singleton in Ha as ->.
           rewrite (Hrec _ _ _ E). lia.
    + apply IH; [done|]. intros a Ha. specialize (Hlt a Ha). lia.
Qed.

(** The corpora [load_and_preprocess] builds carry distinct indices. *)
Lemma load_and_preprocess_idx (ext : External)
    (kalshi_raw poly_raw : list (gmap string jval)) (kalshi poly : list market) :
  load_and_preprocess ext kalshi_raw poly_raw = Ok (kalshi, poly) ->
  NoDup (map idx kalshi) /\ NoDup (map idx poly).
Proof.
  unfold load_and_preprocess.
  destruct (load_loop (kalshi_record ext) 0 kalshi_raw []) as [ks|e] eqn:Ek;
    simpl; [|discriminate].
  destruct (load_loop (poly_record ext) 0 poly_raw []) as [ps|e] eqn:Ep;
    simpl; [|discriminate].
  intros [= <- <-]. split.
  - eapply (load_loop_idx (kalshi_record ext)); [| | |exact Ek].
    + intros i m mk. unfold kalshi_record.
      destruct (get_stripped m "title") as [t|]; simpl; [|discriminate].
      destruct (get_stripped m "description") as [dsc|]; simpl; [|discriminate].
      destruct (String.eqb t ""); [discriminate|]. by intros [= <-].
    + constructor.
    + intros a Ha. by apply not_elem_of_nil in Ha.
  - eapply (load_loop_idx (poly_record ext)); [| | |exact Ep].
    + intros i m mk. unfold poly_record.
      destruct (get_stripped m "question") as [t|]; simpl; [|discriminate].
      destruct (get_stripped m "description") as [dsc|]; simpl; [|discriminate].
      destruct (String.eqb t ""); [discriminate|]. by intros [= <-].
    + constructor.
    + intros a Ha. by apply not_elem_of_nil in Ha.
Qed.

Lemma NoDup_map_through {A B C : Type} (f : A -> B) (g : A -> C) (l : list A) :
  NoDup (map f l) ->
  (forall a b, a ∈ l -> b ∈ l -> g a = g b -> f a = f b) ->
  NoDup (map g l).
Proof.
  induction l as [|x l IH]; simpl; intros Hnd Hfg; [constructor|].
  apply NoDup_cons in Hnd as [Hx Hnd]. apply NoDup_cons. split.
  - intros Hin. apply list_elem_of_fmap in Hin as (y & Hy & Hyl).
    apply Hx. rewrite (Hfg x y); [by apply list_elem_of_fmap_2|by left|by right|done].
  - apply IH; [done|]. intros a b Ha Hb. apply Hfg; by right.
Qed.

(** When the source identifiers of each corpus are distinct, as its
    indices are, no source identifier occurs twice in the output either. *)
Lemma output_source_ids_distinct (ext : External) (kalshi poly : list market)
    (th mx : Q) (pooled : list matched) :
  find_matches ext kalshi poly th mx = Ok pooled ->
  NoDup (map market_id kalshi) -> NoDup (map market_id poly) ->
  NoDup (map kalshi_id (deduplicate_matches pooled))
  /\ NoDup (map poly_id (deduplicate_matches pooled)).
Proof.
  intros Hfind Hk Hp.
  assert (Hwalk := deduplicate_matches_walk pooled).
  assert (Hinj : injective_on_both_sides (deduplicate_matches pooled)).
  { rewrite Hwalk. apply (greedy_walk_injective _ []). split; constructor. }
  destruct Hinj as [Hik Hip].
  assert (Hfrom : forall m, m ∈ deduplicate_matches pooled ->
                            pooled_from kalshi poly m).
  { intros m Hm. eapply find_matches_from; [exact Hfind|by right]. }
  split.
  - apply (NoDup_map_through kalshi_idx); [exact Hik|].
    intros a b Ha Hb Heq.
    destruct (Hfrom a Ha) as (ka & pa & sa & ta & Hka & _ & _ & _ & ->).
    destruct (Hfrom b Hb) as (kb & pb & sb & tb & Hkb & _ & _ & _ & ->).
    simpl in *.
    by rewrite (same_field_same_record market_id kalshi ka kb Hk Hka Hkb Heq).
  - apply (NoDup_map_through poly_idx); [exact Hip|].
    intros a b Ha Hb Heq.
    destruct (Hfrom a Ha) as (ka & pa & sa & ta & _ & Hpa & _ & _ & ->).
    destruct (Hfrom b Hb) as (kb & pb & sb & tb & _ & Hpb & _ & _ & ->).
    simpl in *.
    by rewrite (same_field_same_record market_id poly pa pb Hp Hpa Hpb Heq).
Qed.

(** ** Polarity and basis-point conflicts *)

(** C3. When one raw text contains a word of the antonym table and the
    other raw text contains the paired opposite, the gate rejects the pair
    for every score, and in corpora with distinct indices no pooled
    candidate and no candidate of the output pairs these two records. *)
Theorem polarity_exclusion (k p : market) (pair : string * string) :
  pair ∈ opposite_pairs ->
  opposed (text k) (text p) pair = true ->
  (forall sc, is_high_quality_match k p sc = false)
  /\ (forall ext kalshi poly th mx pooled m,
        k ∈ kalshi -> p ∈ poly ->
        NoDup (map idx kalshi) -> NoDup (map idx poly) ->
        find_matches ext kalshi poly th mx = Ok pooled ->
        m ∈ pooled \/ m ∈ deduplicate_matches pooled ->
        ~ (kalshi_idx m = idx k /\ poly_idx m = idx p)).
Proof.
  intros Hpair Hopp.
  assert (Hgate : forall sc, is_high_quality_match k p sc = false).
  { intros sc. apply gate_needs_semantic_check.
    by eapply semantic_check_opposed. }
  split; [exact Hgate|].
  intros ext kalshi poly th mx pooled m Hk Hp Hnk Hnp Hfind Hm [Ek Ep].
  destruct (find_matches_from ext kalshi poly th mx pooled Hfind m Hm)
    as (k' & p' & sc & td & Hk' & Hp' & Hpass & _ & ->).
  simpl in Ek, Ep.
  assert (k' = k) as -> by (apply (same_field_same_record idx kalshi); assumption).
  assert (p' = p) as -> by (apply (same_field_same_record idx poly); assumption).
  rewrite Hgate in Hpass. discriminate.
Qed.

(** The instance of the specification: "rate hike" on the left, "rate cut"
    on the right, otherwise the same wording. With a second right record
    that repeats the left wording, the run pools the left record with that
    one, never with the "rate cut" record. *)
Lemma polarity_exclusion_witness :
  load_and_preprocess example_ext [hike_raw] [cut_raw; hike_p_raw]
  = Ok ([hike_k], [cut_p; hike_p])
  /\ find_matches example_ext [hike_k] [cut_p; hike_p] 80 24
     = Ok [build_match hike_k hike_p 100 None]
  /\ (forall sc, is_high_quality_match hike_k cut_p sc = false)
  /\ (forall m, m ∈ deduplicate_matches [build_match hike_k hike_p 100 None] ->
        ~ (kalshi_idx m = idx hike_k /\ poly_idx m = idx cut_p)).
Proof.
  split; [vm_compute; reflexivity|].
  split; [vm_compute; reflexivity|].
  destruct (polarity_exclusion hike_k cut_p ("cut", "hike")) as [Hgate Hrun].
  - vm_compute. do 8 right. left.
  - vm_compute. reflexivity.
  - split; [exact Hgate|].
    intros m Hm.
    apply (Hrun example_ext [hike_k] [cut_p; hike_p] 80%Q 24%Q
             [build_match hike_k hike_p 100 None] m).
    + left.
    + left.
    + vm_compute. repeat constructor; intros H; by apply not_elem_of_nil in H.
    + vm_compute. repeat constructor; intros H;
        repeat (apply elem_of_cons in H as [H|H]; [discriminate|]);
        by apply not_elem_of_nil in H.
    + vm_compute. reflexivity.
    + by right.
Defined.

(** C5. When both raw texts contain a basis-point quantity and the two
    sets of extracted digit strings are disjoint, the semantic check fails
    and the gate rejects the pair for every score, a score of 95 or more
    included. *)
Theorem conflicting_bps_rejected (k p : market) :
  bps_amounts (Str.lower (text k)) <> [] ->
  bps_amounts (Str.lower (text p)) <> [] ->
  (forall a, a ∈ bps_amounts (Str.lower (text k)) ->
             a ∉ bps_amounts (Str.lower (text p))) ->
  semantic_similarity_check (text k) (text p) = false
  /\ (forall sc, is_high_quality_match k p sc = false).
Proof.
  intros Hk Hp Hdisj.
  assert (Hsem : semantic_similarity_check (text k) (text p) = false)
    by (by apply semantic_check_bps).
  split; [exact Hsem|]. intros sc. by apply gate_needs_semantic_check.
Qed.

(** 25 against 50 basis points: the numeric rule alone would let the pair
    through, the semantic check does not, whatever the score. *)
Lemma conflicting_bps_rejected_witness :
  bps_amounts (Str.lower (text bps25_k)) = ["25"]
  /\ bps_amounts (Str.lower (text bps50_p)) = ["50"]
  /\ numbers_related bps25_k bps50_p 100 = true
  /\ semantic_similarity_check (text bps25_k) (text bps50_p) = false
  /\ (forall sc, is_high_quality_match bps25_k bps50_p sc = false).
Proof.
  split; [vm_compute; reflexivity|].
  split; [vm_compute; reflexivity|].
  split; [vm_compute; reflexivity|].
  apply (conflicting_bps_rejected bps25_k bps50_p).
  - vm_compute. discriminate.
  - vm_compute. discriminate.
  - intros a. vm_compute. intros Ha Hb.
    inversion Ha; subst; [|by inversion H1].
    inversion Hb; subst. by inversion H1.
Defined.

(** ** The numeric-closeness rule *)






(** ** Rounding *)


Lemma round_half_even_nonneg (q : Q) : (0 <= q)%Q -> (0 <= round_half_even q)%Z.
Proof.
  intros H. unfold round_half_even.
  pose proof (Qfloor_resp_le _ _ H) as Hf. change (Qfloor 0) with 0%Z in Hf.
  destruct (_ ?= _)%Q; [destruct (Z.even _)| |]; lia.
Qed.


Lemma py_round_nonneg (h : Q) (n : nat) : (0 <= h)%Q -> (0 <= py_round h n)%Q.
Proof.
  intros H. unfold py_round. rewrite Qred_correct.
  assert (Hs : (0 < inject_Z (10 ^ Z.of_nat n))%Q).
  { change 0%Q with (inject_Z 0). rewrite <- Zlt_Qlt. lia. }
  apply Qle_shift_div_l; [done|]. rewrite Qmult_0_l.
  change 0%Q with (inject_Z 0). rewrite <- Zle_Qle.
  apply round_half_even_nonneg. apply Qmult_le_0_compat; [done|].
  by apply Qlt_le_weak.
Qed.

Lemma hours_apart_nonneg (a b : datetime) (h : Q) :
  hours_apart a b = Ok h -> (0 <= h)%Q.
Proof.
  unfold hours_apart. destruct (total_seconds_between a b) as [secs|e]; simpl;
    [|discriminate].
  intros [= <-]. apply Qle_shift_div_l; [reflexivity|].
  rewrite Qmult_0_l. apply Qabs_nonneg.
Qed.

(** ** The emitted time difference *)




(** ** Number extraction *)

(** C7. On ["a $2.5m grant at 25bps over 2024"] the extractor returns
    exactly the three tokens ["2024"], ["$2.5m"] and ["25bps"]. The price
    pattern does find the bare ["2"] of the dollar amount, and the filter
    at 10 drops it: no bare digit sequence below 10 becomes a token. *)
Theorem extract_numbers_round_trip :
  extract_numbers_strict "a $2.5m grant at 25bps over 2024"
  = {[ "2024"; "$2.5m"; "25bps" ]}
  /\ findall2 dollars_re (Str.lower "a $2.5m grant at 25bps over 2024")
     = [("2.5", "m")]
  /\ findall1 bps_re (Str.lower "a $2.5m grant at 25bps over 2024") = ["25"]
  /\ findall1 prices_re "a $2.5m grant at 25bps over 2024" = ["2"; "2024"]
  /\ significant "2" = false
  /\ ("2" ∉ extract_numbers_strict "a $2.5m grant at 25bps over 2024")
  /\ ("5" ∉ extract_numbers_strict "a $2.5m grant at 25bps over 2024").
Proof.
  assert (E : extract_numbers_strict "a $2.5m grant at 25bps over 2024"
              = {[ "2024"; "$2.5m"; "25bps" ]}) by (vm_compute; reflexivity).
  repeat split; try (vm_compute; reflexivity).
  - rewrite E. intros H.
    repeat (apply elem_of_union in H as [H|H]);
      apply elem_of_singleton in H; discriminate.
  - rewrite E. intros H.
    repeat (apply elem_of_union in H as [H|H]);
      apply elem_of_singleton in H; discriminate.
Qed.

(** ** Domain classification *)

(** C8. The classifier's seven rules are politics, macro, crypto, finance,
    tech, sports, entertainment, in this order; its result is the tag of the
    first rule whose pattern is found in the lower-cased text, and [other]
    when none is. A text in which both the politics and the crypto pattern
    are found is tagged politics; so is the text that mentions both an
    election and bitcoin. *)
Theorem classify_domain_first_rule (t : string) :
  map fst domain_rules
  = ["politics"; "macro"; "crypto"; "finance"; "tech"; "sports"; "entertainment"]
  /\ classify_domain_strict t = first_matching_rule t
  /\ ((forall rule, rule ∈ domain_rules -> search (snd rule) (Str.lower t) = false)
      -> classify_domain_strict t = "other")
  /\ (search politics_re (Str.lower t) = true ->
      search crypto_re (Str.lower t) = true ->
      classify_domain_strict t = "politics")
  /\ classify_domain_strict "Will Bitcoin rally after the election?" = "politics".
Proof.
  assert (Hfirst : classify_domain_strict t = first_matching_rule t).
  { unfold classify_domain_strict, first_matching_rule, domain_rules. simpl.
    repeat (match goal with
            | |- context [if search ?r ?x then _ else _] => destruct (search r x)
            end; try reflexivity). }
  split; [reflexivity|]. split; [exact Hfirst|]. split; [|split].
  - intros Hnone. rewrite Hfirst. unfold first_matching_rule.
    destruct (List.find _ domain_rules) as [[tag r]|] eqn:E; [|reflexivity].
    apply find_some in E as [Hin Hs].
    rewrite Hnone in Hs; [discriminate|by apply list_elem_of_In].
  - intros Hp _. unfold classify_domain_strict. by rewrite Hp.
  - vm_compute. reflexivity.
Qed.

Lemma classify_domain_first_rule_witness :
  search politics_re (Str.lower "Will Bitcoin rally after the election?") = true
  /\ search crypto_re (Str.lower "Will Bitcoin rally after the election?") = true
  /\ classify_domain_strict "Will Bitcoin rally after the election?" = "politics"
  /\ classify_domain_strict "Will it rain tomorrow?" = "other".
Proof.
  destruct (classify_domain_first_rule "Will Bitcoin rally after the election?")
    as (_ & _ & _ & Hboth & _).
  destruct (classify_domain_first_rule "Will it rain tomorrow?")
    as (_ & _ & Hnone & _ & _).
  assert (Hp : search politics_re
                 (Str.lower "Will Bitcoin rally after the election?") = true)
    by (vm_compute; reflexivity).
  assert (Hc : search crypto_re
                 (Str.lower "Will Bitcoin rally after the election?") = true)
    by (vm_compute; reflexivity).
  split; [exact Hp|]. split; [exact Hc|]. split; [exact (Hboth Hp Hc)|].
  apply Hnone. intros rule Hin. unfold domain_rules in Hin.
  repeat (apply elem_of_cons in Hin as [->|Hin]; [vm_compute; reflexivity|]).
  by apply not_elem_of_nil in Hin.
Defined.

(** ** Two runs on the same input *)


(** The one field of the document that depends on the clock *)
Lemma generated_at_is_clock (now : string) (ms : list matched) :
  generated_at (save_matches now ms) = now.
Proof. reflexivity. Qed.



(** ** Absent fields *)

Section Absent.
Context (m : gmap string jval) (key : string) (Habsent : m !! key = None).

Lemma get_stripped_absent (k : string) :
  get_stripped (<[ key := JStr "" ]> m) k = get_stripped m k.
Proof.
  unfold get_stripped. rewrite lookup_insert.
  destruct (decide (key = k)) as [<-|_]; [|reflexivity]. by rewrite Habsent.
Qed.

Lemma default_id_absent (k : string) :
  default (JStr "") (<[ key := JStr "" ]> m !! k) = default (JStr "") (m !! k).
Proof.
  rewrite lookup_insert.
  destruct (decide (key = k)) as [<-|_]; [|reflexivity]. by rewrite Habsent.
Qed.

Lemma parse_end_date_absent (ext : External) (k : string) :
  parse_end_date ext (get (<[ key := JStr "" ]> m) k)
  = parse_end_date ext (get m k).
Proof.
  unfold get. rewrite lookup_insert.
  destruct (decide (key = k)) as [<-|_]; [|reflexivity]. by rewrite Habsent.
Qed.

Lemma parse_end_date_or_absent (ext : External) (a b : string) :
  parse_end_date ext (py_or (get (<[ key := JStr "" ]> m) a)
                            (get (<[ key := JStr "" ]> m) b))
  = parse_end_date ext (py_or (get m a) (get m b)).
Proof.
  unfold get. rewrite !lookup_insert.
  destruct (decide (key = a)) as [<-|_]; destruct (decide (key = b)) as [<-|_];
    rewrite ?Habsent; simpl; try reflexivity.
  unfold py_or. by destruct (truthy (default JNull (m !! a))).
Qed.
End Absent.

Lemma get_stripped_err (m : gmap string jval) (k : string) :
  (exists e, get_stripped m k = Err e) <-> not_a_string (m !! k).
Proof.
  unfold get_stripped, not_a_string. destruct (m !! k) as [v|].
  - destruct v as [|b|q|val|l|l]; split;
      try (intros [e H]; discriminate H);
      try (intros _; eexists; split; [reflexivity|discriminate]);
      try (intros _; eexists; reflexivity).
    intros (v & [= <-] & H). by destruct (H val).
  - split; [intros [e H]; discriminate|intros (v & H & _); discriminate].
Qed.

Lemma record_err (ext : External) (i : nat) (m : gmap string jval)
    (name : string) (mk : nat -> gmap string jval -> string -> string -> market) :
  (exists e,
      (title ← get_stripped m name;
       desc ← get_stripped m "description";
       if String.eqb title "" then Ok None
       else Ok (Some (mk i m title desc))) = Err e)
  <-> not_a_string (m !! name) \/ not_a_string (m !! "description").
Proof.
  rewrite <- !get_stripped_err.
  destruct (get_stripped m name) as [t|e1]; simpl.
  - destruct (get_stripped m "description") as [dsc|e2]; simpl.
    + split.
      * intros [e H]. destruct (String.eqb t ""); discriminate.
      * intros [[e H]|[e H]]; discriminate.
    + split; [intros _; right|intros _]; by exists e2.
  - split; [intros _; left|intros _]; by exists e1.
Qed.

(** C10, as the code has it. A raw record in which a field is absent is
    processed exactly as the same record with the empty string in that
    field, on both sides; an error arises only from a title (or question)
    or a description that is present and is not a string, never from an
    absent field. *)
Theorem absent_field_defaults (ext : External) (i : nat)
    (m : gmap string jval) (key : string) :
  m !! key = None ->
  kalshi_record ext i (<[ key := JStr "" ]> m) = kalshi_record ext i m
  /\ poly_record ext i (<[ key := JStr "" ]> m) = poly_record ext i m
  /\ ((exists e, kalshi_record ext i m = Err e)
      <-> not_a_string (m !! "title") \/ not_a_string (m !! "description"))
  /\ ((exists e, poly_record ext i m = Err e)
      <-> not_a_string (m !! "question") \/ not_a_string (m !! "description")).
Proof.
  intros Habsent. split; [|split; [|split]].
  - unfold kalshi_record, kalshi_market.
    by rewrite !(get_stripped_absent m key Habsent),
      (default_id_absent m key Habsent),
      (parse_end_date_or_absent m key Habsent).
  - unfold poly_record, poly_market.
    by rewrite !(get_stripped_absent m key Habsent),
      (default_id_absent m key Habsent),
      (parse_end_date_absent m key Habsent).
  - apply (record_err ext i m "title" (kalshi_market ext)).
  - apply (record_err ext i m "question" (poly_market ext)).
Qed.

Lemma absent_field_defaults_witness :
  kalshi_record example_ext 0 (<[ "conditionId" := JStr "" ]> no_id_raw)
  = kalshi_record example_ext 0 no_id_raw
  /\ poly_record example_ext 0 (<[ "conditionId" := JStr "" ]> no_id_raw)
     = poly_record example_ext 0 no_id_raw
  /\ ((exists e, kalshi_record example_ext 0 no_id_raw = Err e)
      <-> not_a_string (no_id_raw !! "title")
          \/ not_a_string (no_id_raw !! "description"))
  /\ ((exists e, poly_record example_ext 0 no_id_raw = Err e)
      <-> not_a_string (no_id_raw !! "question")
          \/ not_a_string (no_id_raw !! "description")).
Proof.
  apply (absent_field_defaults example_ext 0 no_id_raw "conditionId").
  vm_compute. reflexivity.
Defined.

(** The claim of C10 fails on these records: a record without its
    identifier is built, with the empty string as identifier, and a record
    without its title is dropped; neither raises an error, and the run goes
    on. *)
Lemma absent_field_counterexample :
  no_id_raw !! "conditionId" = None
  /\ kalshi_record example_ext 1 no_id_raw
     = Ok (Some (kalshi_market example_ext 1 no_id_raw
                   "Will the Fed cut rates in 2024?" ""))
  /\ market_id (kalshi_market example_ext 1 no_id_raw
                  "Will the Fed cut rates in 2024?" "") = JStr ""
  /\ no_title_raw !! "title" = None
  /\ kalshi_record example_ext 0 no_title_raw = Ok None
  /\ load_and_preprocess example_ext [no_title_raw; no_id_raw] []
     = Ok ([kalshi_market example_ext 1 no_id_raw
              "Will the Fed cut rates in 2024?" ""], []).
Proof.
  repeat split; vm_compute; reflexivity.
Qed.

(** ** The numeric rule on examples *)


(** Which tokens are re-parsed: a basis-point token and a token with a
    percent sign are, a dollar amount, a year and a bare percentage (as
    the extractor stores it) are not. *)
Lemma reparse_examples :
  reparse "25bps" = Some (inject_Z 25)
  /\ reparse "4.5%" = Some (9 # 2)%Q
  /\ reparse "$2.5m" = None
  /\ reparse "2024" = None
  /\ reparse "4.5" = None
  /\ elements (extract_numbers_strict "Inflation above 4.5% in 2024") = ["2024"; "4.5"].
Proof. repeat split; vm_compute; reflexivity. Qed.

(** The accept scenario of the specification: the same 25 basis points on
    both sides. *)
Lemma accept_scenario :
  is_high_quality_match
    (kalshi_market example_ext 0 ∅ "Will the Fed cut rates by 25bps in 2024" "")
    (poly_market example_ext 0 ∅
       "Will the Fed (Federal Reserve) cut rates by 25 bps in 2024" "")
    90 = true.
Proof. vm_compute. reflexivity. Qed.

(** * Further properties of the matcher *)

(** ** Domain buckets *)

Lemma group_by_domain_fold (dm : string) :
  forall (poly : list market) (acc : gmap string (list market)),
    default []
      (foldl (fun acc p =>
                <[ domain p := default [] (acc !! domain p) ++ [p] ]> acc)
             acc poly !! dm)
    = default [] (acc !! dm) ++ filter (fun p => domain p = dm) poly.
Proof.
  induction poly as [|q poly IH]; intros acc; simpl.
  - by rewrite app_nil_r.
  - rewrite IH, lookup_insert, filter_cons.
    destruct (decide (domain q = dm)) as [<-|Hne]; simpl.
    + by rewrite <- app_assoc.
    + reflexivity.
Qed.

(** X1. The bucket a left record of domain [dm] searches holds exactly the
    right records of that domain, in the order of the right corpus. *)
Theorem domain_bucket_exact (poly : list market) (dm : string) :
  default [] (group_by_domain poly !! dm)
  = filter (fun p => domain p = dm) poly.
Proof.
  unfold group_by_domain. rewrite group_by_domain_fold.
  by rewrite lookup_empty.
Qed.

Lemma bucket_member (poly : list market) (dm : string) (p : market) :
  p ∈ default [] (group_by_domain poly !! dm) -> p ∈ poly /\ domain p = dm.
Proof.
  unfold group_by_domain. rewrite group_by_domain_fold, lookup_empty. simpl. intros H.
  by apply list_elem_of_filter in H as [Hd Hp].
Qed.

(** ** What every pooled candidate satisfies *)

Lemma process_results_pairs (kalshi poly : list market) (k : market)
    (cands : list market) (mx : Q) :
  k ∈ kalshi ->
  (forall p, p ∈ cands -> p ∈ poly /\ domain p = domain k) ->
  forall results acc r,
    Forall (pooled_pair kalshi poly mx) acc ->
    process_results k cands mx results acc = Ok r ->
    Forall (pooled_pair kalshi poly mx) r.
Proof.
  intros Hk Hc. induction results as [|[[t sc] i] results IH];
    intros acc r Hacc; simpl.
  - by intros [= <-].
  - destruct (cands !! i) as [p|] eqn:Ei; [|discriminate].
    destruct (is_high_quality_match k p sc) eqn:Eg; simpl; [|by apply IH].
    destruct (final_time_diff k p) as [td|e] eqn:Et; simpl; [|discriminate].
    destruct (match td with Some t0 => Qltb mx t0 | None => false end) eqn:Ew;
      [by apply IH|].
    apply IH. apply Forall_app. split; [done|]. constructor; [|constructor].
    destruct (Hc p) as [Hp Hd]; [by eapply list_elem_of_lookup_2|].
    exists k, p, sc, td. repeat split; try done.
    intros t0 ->. by apply Qltb_ge.
Qed.

Lemma find_loop_pairs (ext : External) (all poly : list market) (th mx : Q) :
  forall kalshi acc r,
    (forall k, k ∈ kalshi -> k ∈ all) ->
    Forall (pooled_pair all poly mx) acc ->
    find_loop ext (group_by_domain poly) th mx kalshi acc = Ok r ->
    Forall (pooled_pair all poly mx) r.
Proof.
  induction kalshi as [|k kalshi IH]; intros acc r Hall Hacc; simpl.
  - by intros [= <-].
  - assert (Hrest : forall k', k' ∈ kalshi -> k' ∈ all).
    { intros k' Hk'. apply Hall. by right. }
    pose proof (bucket_member poly (domain k)) as Hc.
    destruct (bool_decide (default [] (group_by_domain poly !! domain k) = []));
      [by apply IH|].
    set (cands := default [] (group_by_domain poly !! domain k)) in *.
    destruct (match end_dt k with
              | Some k_end => time_filter k_end mx cands []
              | None => Ok cands
              end) as [cands'|e] eqn:Ef; simpl; [|discriminate].
    assert (Hc' : forall p, p ∈ cands' -> p ∈ poly /\ domain p = domain k).
    { intros p Hp. destruct (end_dt k) as [k_end|].
      - destruct (time_filter_from _ _ _ _ _ Ef p Hp) as [X|X]; [by apply Hc|].
        by apply not_elem_of_nil in X.
      - injection Ef as <-. by apply Hc. }
    destruct (bool_decide (cands' = [])); [by apply IH|].
    destruct (process_extract ext (text_norm k) (map text_norm cands') th)
      as [results|]; [|by apply IH].
    destruct (process_results k cands' mx results acc) as [acc'|e] eqn:Ep;
      simpl; [|discriminate].
    apply IH; [done|].
    eapply process_results_pairs; try eassumption. apply Hall. by left.
Qed.

Lemma find_matches_pairs (ext : External) (kalshi poly : list market)
    (th mx : Q) (pooled : list matched) :
  find_matches ext kalshi poly th mx = Ok pooled ->
  forall m, m ∈ pooled \/ m ∈ deduplicate_matches pooled ->
            pooled_pair kalshi poly mx m.
Proof.
  intros H m Hm.
  assert (Hall : Forall (pooled_pair kalshi poly mx) pooled).
  { eapply (find_loop_pairs ext kalshi poly th mx kalshi []); eauto. }
  assert (Hin : m ∈ pooled).
  { destruct Hm as [Hm|Hm]; [done|]. by apply deduplicate_matches_sub. }
  by apply (proj1 (Forall_forall _ _) Hall).
Qed.

(** What the gate demands of an accepted pair *)
Lemma gate_accepts (k p : market) (sc : Q) :
  is_high_quality_match k p sc = true ->
  (80 <= sc)%Q
  /\ entities k ∩ entities p <> ∅
  /\ (3 # 10 <= ratio (entities k ∩ entities p) (entities k ∪ entities p))%Q
  /\ semantic_similarity_check (text k) (text p) = true
  /\ domain_rule k p = true
  /\ numbers_related k p sc = true.
Proof.
  unfold is_high_quality_match.
  destruct (Qltb sc 80) eqn:E1; [discriminate|].
  destruct (bool_decide (entities k ∩ entities p = ∅)) eqn:E2; [discriminate|].
  destruct (Qltb (ratio _ _) (3 # 10)) eqn:E3; [discriminate|].
  destruct (semantic_similarity_check (text k) (text p)); [|discriminate].
  destruct (domain_rule k p); [|discriminate].
  destruct (numbers_related k p sc); [|discriminate].
  intros _. repeat split.
  - by apply Qltb_ge.
  - by apply bool_decide_eq_false in E2.
  - by apply Qltb_ge.
Qed.

(** ** Overlap ratios *)

Lemma ratio_bounds (a b : gset string) :
  a ⊆ b -> (0 <= ratio a b)%Q /\ (ratio a b <= 1)%Q.
Proof.
  intros Hsub. unfold ratio. destruct (bool_decide (b = ∅)) eqn:E.
  - split; discriminate.
  - apply bool_decide_eq_false in E.
    assert (Hb : (0 < size b)%nat).
    { destruct (size b) eqn:Es; [|lia]. exfalso. apply E.
      apply leibniz_equiv. by apply size_empty_iff. }
    pose proof (subseteq_size a b Hsub) as Hle.
    unfold Qle. cbn [Qnum Qden].
    assert (Hp : Z.pos (Pos.of_nat (size b)) = Z.of_nat (size b)).
    { rewrite <- (Nat2Pos.id (size b)) at 2 by lia. by rewrite positive_nat_Z. }
    split; lia.
Qed.

Lemma round_half_even_ge (q : Q) (z : Z) :
  (inject_Z z <= q)%Q -> (z <= round_half_even q)%Z.
Proof.
  intros H. unfold round_half_even.
  pose proof (Qfloor_resp_le _ _ H) as Hf. rewrite Qfloor_Z in Hf.
  destruct (_ ?= _)%Q; [destruct (Z.even _)| |]; lia.
Qed.

Lemma round_half_even_le (q : Q) (z : Z) :
  (q <= inject_Z z)%Q -> (round_half_even q <= z)%Z.
Proof.
  intros H. unfold round_half_even.
  pose proof (Qfloor_resp_le _ _ H) as Hf. rewrite Qfloor_Z in Hf.
  pose proof (Qfloor_le q) as Hlo.
  destruct (Z.eq_dec (Qfloor q) z) as [Heq|Hne].
  - rewrite Heq in *.
    assert (Hq : (q == inject_Z z)%Q) by (apply Qle_antisym; assumption).
    destruct (Qcompare_spec (q - inject_Z z) (1 # 2)) as [E|E|E]; try lia;
      rewrite Hq in E; exfalso; lra.
  - destruct (_ ?= _)%Q; [destruct (Z.even _)| |]; lia.
Qed.

Lemma scaled_back (z sc : Q) : (0 < sc)%Q -> (z / sc * sc == z)%Q.
Proof.
  intros Hs. field. intros X. rewrite X in Hs. by apply Qlt_irrefl in Hs.
Qed.

Lemma pow10_pos (n : nat) : (0 < inject_Z (10 ^ Z.of_nat n))%Q.
Proof. change 0%Q with (inject_Z 0). rewrite <- Zlt_Qlt. lia. Qed.

(** Rounding to [n] decimals keeps a value on its side of a bound that has
    at most [n] decimals itself. *)
Lemma py_round_ge (q : Q) (n : nat) (z : Z) :
  (inject_Z z / inject_Z (10 ^ Z.of_nat n) <= q)%Q ->
  (inject_Z z / inject_Z (10 ^ Z.of_nat n) <= py_round q n)%Q.
Proof.
  intros H. unfold py_round. rewrite Qred_correct.
  pose proof (pow10_pos n) as Hs.
  set (sc := inject_Z (10 ^ Z.of_nat n)) in *.
  apply Qle_shift_div_l; [done|]. rewrite (scaled_back _ _ Hs).
  rewrite <- Zle_Qle. apply round_half_even_ge.
  rewrite <- (scaled_back (inject_Z z) sc Hs).
  apply Qmult_le_compat_r; [done|]. by apply Qlt_le_weak.
Qed.

Lemma py_round_le (q : Q) (n : nat) (z : Z) :
  (q <= inject_Z z / inject_Z (10 ^ Z.of_nat n))%Q ->
  (py_round q n <= inject_Z z / inject_Z (10 ^ Z.of_nat n))%Q.
Proof.
  intros H. unfold py_round. rewrite Qred_correct.
  pose proof (pow10_pos n) as Hs.
  set (sc := inject_Z (10 ^ Z.of_nat n)) in *.
  apply Qle_shift_div_r; [done|]. rewrite (scaled_back _ _ Hs).
  rewrite <- Zle_Qle. apply round_half_even_le.
  rewrite <- (scaled_back (inject_Z z) sc Hs).
  apply Qmult_le_compat_r; [done|]. by apply Qlt_le_weak.
Qed.

Lemma py_round3_ge_03 (q : Q) : (3 # 10 <= q)%Q -> (3 # 10 <= py_round q 3)%Q.
Proof.
  assert (E : (inject_Z 300 / inject_Z (10 ^ Z.of_nat 3) == 3 # 10)%Q)
    by reflexivity.
  rewrite <- E. apply py_round_ge.
Qed.

Lemma py_round3_le_1 (q : Q) : (q <= 1)%Q -> (py_round q 3 <= 1)%Q.
Proof.
  assert (E : (inject_Z 1000 / inject_Z (10 ^ Z.of_nat 3) == 1)%Q)
    by reflexivity.
  rewrite <- E. apply py_round_le.
Qed.

(** ** Thresholds, domains and the time window of the pooled candidates *)

Lemma sorted_elem (s0 : gset string) (x : string) : x ∈ sorted s0 <-> x ∈ s0.
Proof.
  unfold sorted. by rewrite merge_sort_Permutation, elem_of_elements.
Qed.

(** X2. Every candidate [find_matches] pools, and so every candidate of
    the deduplicated output, has a text score of at least 80, at least one
    shared entity, and a stored entity overlap between 0.3 and 1. *)
Theorem pooled_thresholds (ext : External) (kalshi poly : list market)
    (th mx : Q) (pooled : list matched) (m : matched) :
  find_matches ext kalshi poly th mx = Ok pooled ->
  m ∈ pooled \/ m ∈ deduplicate_matches pooled ->
  (80 <= score m)%Q
  /\ shared_entities m <> []
  /\ (3 # 10 <= entity_overlap m)%Q /\ (entity_overlap m <= 1)%Q.
Proof.
  intros Hfind Hm.
  destruct (find_matches_pairs ext kalshi poly th mx pooled Hfind m Hm)
    as (k & p & sc & td & _ & _ & _ & Hpass & _ & _ & ->).
  destruct (gate_accepts k p sc Hpass) as (Hsc & Hne & Hr & _).
  simpl. split; [exact Hsc|]. split; [|split].
  - intros Hnil. apply Hne. apply set_eq. intros x.
    rewrite <- sorted_elem, Hnil. split; intros H.
    + by apply not_elem_of_nil in H.
    + by apply not_elem_of_empty in H.
  - by apply py_round3_ge_03.
  - apply py_round3_le_1.
    apply (ratio_bounds (entities k ∩ entities p) (entities k ∪ entities p)).
    intros x Hx. apply elem_of_intersection in Hx as [Hx _].
    by apply elem_of_union_l.
Qed.

Lemma pooled_thresholds_witness :
  (80 <= score fed_match)%Q
  /\ shared_entities fed_match <> []
  /\ (3 # 10 <= entity_overlap fed_match)%Q /\ (entity_overlap fed_match <= 1)%Q.
Proof.
  apply (pooled_thresholds example_ext [fed_k; btc_k] [fed_p; btc_p]
           80%Q 24%Q [fed_match; btc_match] fed_match).
  - vm_compute. reflexivity.
  - left. left.
Defined.

(** X3. Every pooled candidate pairs a left and a right record of one and
    the same domain, and carries that domain. *)
Theorem pooled_same_domain (ext : External) (kalshi poly : list market)
    (th mx : Q) (pooled : list matched) (m : matched) :
  find_matches ext kalshi poly th mx = Ok pooled ->
  m ∈ pooled \/ m ∈ deduplicate_matches pooled ->
  exists k p,
    k ∈ kalshi /\ p ∈ poly
    /\ kalshi_idx m = idx k /\ poly_idx m = idx p
    /\ kalshi_title m = title k /\ poly_title m = title p
    /\ domain k = match_domain m /\ domain p = match_domain m.
Proof.
  intros Hfind Hm.
  destruct (find_matches_pairs ext kalshi poly th mx pooled Hfind m Hm)
    as (k & p & sc & td & Hk & Hp & Hd & _ & _ & _ & ->).
  exists k, p. by repeat split.
Qed.

Lemma pooled_same_domain_witness :
  exists k p,
    k ∈ [fed_k; btc_k] /\ p ∈ [fed_p; btc_p]
    /\ kalshi_idx btc_match = idx k /\ poly_idx btc_match = idx p
    /\ kalshi_title btc_match = title k /\ poly_title btc_match = title p
    /\ domain k = match_domain btc_match /\ domain p = match_domain btc_match.
Proof.
  apply (pooled_same_domain example_ext [fed_k; btc_k] [fed_p; btc_p]
           80%Q 24%Q [fed_match; btc_match] btc_match).
  - vm_compute. reflexivity.
  - left. right. left.
Defined.

(** X4. When both records of a pooled candidate have an end time, the two
    end times are at most [max_time_diff_hours] apart. *)
Theorem pooled_within_window (ext : External) (kalshi poly : list market)
    (th mx : Q) (pooled : list matched) (m : matched) :
  find_matches ext kalshi poly th mx = Ok pooled ->
  m ∈ pooled \/ m ∈ deduplicate_matches pooled ->
  exists k p,
    k ∈ kalshi /\ p ∈ poly
    /\ kalshi_idx m = idx k /\ poly_idx m = idx p
    /\ (forall k_end p_end,
          end_dt k = Some k_end -> end_dt p = Some p_end ->
          exists h, hours_apart k_end p_end = Ok h /\ (h <= mx)%Q).
Proof.
  intros Hfind Hm.
  destruct (find_matches_pairs ext kalshi poly th mx pooled Hfind m Hm)
    as (k & p & sc & td & Hk & Hp & _ & _ & Htd & Hw & ->).
  exists k, p. repeat split; try done.
  intros k_end p_end Ek Ep. unfold final_time_diff in Htd.
  rewrite Ek, Ep in Htd.
  destruct (hours_apart k_end p_end) as [h|e]; simpl in Htd; [|discriminate].
  injection Htd as <-. exists h. split; [done|]. by apply Hw.
Qed.

Lemma pooled_within_window_witness :
  exists k p,
    k ∈ [fed_k; btc_k] /\ p ∈ [fed_p; btc_p]
    /\ kalshi_idx fed_match = idx k /\ poly_idx fed_match = idx p
    /\ (forall k_end p_end,
          end_dt k = Some k_end -> end_dt p = Some p_end ->
          exists h, hours_apart k_end p_end = Ok h /\ (h <= 24)%Q).
Proof.
  apply (pooled_within_window example_ext [fed_k; btc_k] [fed_p; btc_p]
           80%Q 24%Q [fed_match; btc_match] fed_match).
  - vm_compute. reflexivity.
  - left. left.
Defined.

(** ** The fields of a built candidate *)

Lemma str_le_total : Total str_le.
Proof. intros a b. unfold str_le. apply String.leb_total. Qed.

Lemma rounded_ratio_bounds (a b : gset string) :
  (0 <= py_round (ratio (a ∩ b) (a ∪ b)) 3)%Q
  /\ (py_round (ratio (a ∩ b) (a ∪ b)) 3 <= 1)%Q.
Proof.
  destruct (ratio_bounds (a ∩ b) (a ∪ b)) as [H0 H1].
  { intros x Hx. apply elem_of_intersection in Hx as [Hx _].
    by apply elem_of_union_l. }
  split; [by apply py_round_nonneg|]. by apply py_round3_le_1.
Qed.

(** X5. In the dictionary built for a pair, both overlap ratios lie between
    0 and 1, so the rank used by the deduplicator lies between the text
    score and the text score plus 50. *)
Theorem build_match_overlaps (k p : market) (sc : Q) (td : option Q) :
  let m := build_match k p sc td in
  (0 <= entity_overlap m)%Q /\ (entity_overlap m <= 1)%Q
  /\ (0 <= number_overlap m)%Q /\ (number_overlap m <= 1)%Q
  /\ (sc <= quality_score m)%Q /\ (quality_score m <= sc + 50)%Q.
Proof.
  assert (Hr : forall a b : gset string,
            (0 <= py_round (ratio (a ∩ b) (a ∪ b)) 3)%Q
            /\ (py_round (ratio (a ∩ b) (a ∪ b)) 3 <= 1)%Q).
  { intros a b.
    destruct (ratio_bounds (a ∩ b) (a ∪ b)) as [H0 H1].
    { intros x Hx. apply elem_of_intersection in Hx as [Hx _].
      by apply elem_of_union_l. }
    split; [by apply py_round_nonneg|]. by apply py_round3_le_1. }
  intros m. unfold quality_score. subst m. simpl.
  destruct (Hr (entities k) (entities p)) as [He0 He1].
  destruct (Hr (numbers k) (numbers p)) as [Hn0 Hn1].
  repeat split; try done; lra.
Qed.

(** X6. The two shared lists of a built candidate hold exactly the
    entities, and the numeric tokens, that both records have, each once
    and in ascending order. *)
Theorem build_match_shared (k p : market) (sc : Q) (td : option Q) :
  let m := build_match k p sc td in
  (forall e, e ∈ shared_entities m <-> e ∈ entities k /\ e ∈ entities p)
  /\ (forall n, n ∈ shared_numbers m <-> n ∈ numbers k /\ n ∈ numbers p)
  /\ NoDup (shared_entities m) /\ NoDup (shared_numbers m)
  /\ Sorted str_le (shared_entities m) /\ Sorted str_le (shared_numbers m).
Proof.
  assert (Hs : forall (a b : gset string) (x : string),
            x ∈ sorted (a ∩ b) <-> x ∈ a /\ x ∈ b).
  { intros a b x. by rewrite sorted_elem, elem_of_intersection. }
  assert (Hn : forall a : gset string, NoDup (sorted a)).
  { intros a. unfold sorted. rewrite merge_sort_Permutation.
    apply NoDup_elements. }
  assert (Ho : forall a : gset string, Sorted str_le (sorted a)).
  { intros a. unfold sorted.
    apply (@Sorted_merge_sort _ str_le _ str_le_total). }
  simpl. split; [intros e; apply Hs|]. split; [intros n; apply Hs|].
  split; [apply Hn|]. split; [apply Hn|]. split; apply Ho.
Qed.

(** ** One candidate per left record *)

Lemma process_results_new (k : market) (cands : list market) (mx : Q) :
  forall results acc r,
    process_results k cands mx results acc = Ok r ->
    exists new, r = acc ++ new
                /\ (length new <= length results)%nat
                /\ Forall (fun m => kalshi_idx m = idx k) new.
Proof.
  induction results as [|[[t sc] i] results IH]; intros acc r; simpl.
  - intros [= <-]. exists []. by rewrite app_nil_r.
  - assert (Hskip : process_results k cands mx results acc = Ok r ->
              exists new, r = acc ++ new
                          /\ (length new <= S (length results))%nat
                          /\ Forall (fun m => kalshi_idx m = idx k) new).
    { intros H. destruct (IH _ _ H) as (new & -> & Hl & Hf).
      exists new. repeat split; [lia|done]. }
    destruct (cands !! i) as [p|]; [|discriminate].
    destruct (is_high_quality_match k p sc); simpl; [|exact Hskip].
    destruct (final_time_diff k p) as [td|e]; simpl; [|discriminate].
    destruct (match td with Some t0 => Qltb mx t0 | None => false end);
      [exact Hskip|].
    intros H. destruct (IH _ _ H) as (new & -> & Hl & Hf).
    exists (build_match k p sc td :: new). rewrite <- app_assoc.
    repeat split; [simpl; lia|]. by constructor.
Qed.

Lemma find_loop_new (ext : External) (buckets : gmap string (list market))
    (th mx : Q) :
  at_most_one_result ext ->
  forall kalshi acc r,
    find_loop ext buckets th mx kalshi acc = Ok r ->
    exists new, r = acc ++ new
                /\ sublist (map kalshi_idx new) (map idx kalshi).
Proof.
  intros Hone. induction kalshi as [|k kalshi IH]; intros acc r; simpl.
  - intros [= <-]. exists []. by rewrite app_nil_r.
  - assert (Hskip : find_loop ext buckets th mx kalshi acc = Ok r ->
              exists new, r = acc ++ new
                /\ sublist (map kalshi_idx new) (idx k :: map idx kalshi)).
    { intros H. destruct (IH _ _ H) as (new & -> & Hs).
      exists new. split; [done|]. by apply sublist_cons. }
    destruct (bool_decide (default [] (buckets !! domain k) = []));
      [exact Hskip|].
    destruct (match end_dt k with
              | Some k_end =>
                  time_filter k_end mx (default [] (buckets !! domain k)) []
              | None => Ok (default [] (buckets !! domain k))
              end) as [cands|e]; simpl; [|discriminate].
    destruct (bool_decide (cands = [])); [exact Hskip|].
    destruct (process_extract ext (text_norm k) (map text_norm cands) th)
      as [results|] eqn:Ex; [|exact Hskip].
    destruct (process_results k cands mx results acc) as [acc'|e] eqn:Ep;
      simpl; [|discriminate].
    intros H.
    destruct (process_results_new _ _ _ _ _ _ Ep) as (new1 & -> & Hl & Hf).
    destruct (IH _ _ H) as (new2 & -> & Hs).
    exists (new1 ++ new2). rewrite <- app_assoc. split; [done|].
    rewrite map_app. pose proof (Hone _ _ _ _ Ex) as Hlen.
    destruct new1 as [|m1 [|m2 new1]]; simpl in *.
    + by apply sublist_cons.
    + apply Forall_cons in Hf as [-> _]. by apply sublist_skip.
    + lia.
Qed.

(** X7. When the scorer returns at most one result per query, as it does
    when called with [limit=1], the pooled list holds at most one candidate
    per left record, in the order of the left corpus: the left indices of
    the pooled candidates form a subsequence of the indices of the left
    corpus. *)
Theorem one_candidate_per_left (ext : External) (kalshi poly : list market)
    (th mx : Q) (pooled : list matched) :
  at_most_one_result ext ->
  find_matches ext kalshi poly th mx = Ok pooled ->
  sublist (map kalshi_idx pooled) (map idx kalshi)
  /\ (length pooled <= length kalshi)%nat.
Proof.
  intros Hone Hfind.
  destruct (find_loop_new ext _ th mx Hone kalshi [] pooled Hfind)
    as (new & -> & Hs).
  simpl. split; [exact Hs|].
  apply sublist_length in Hs. by rewrite !length_map in Hs.
Qed.

Lemma example_extract_one : at_most_one_result example_ext.
Proof.
  intros query choices cutoff results. simpl. unfold example_extract.
  destruct (list_find _ choices) as [[i c]|]; [destruct (Qle_bool cutoff 100)|];
    intros [= <-]; simpl; lia.
Qed.

Lemma one_candidate_per_left_witness :
  sublist (map kalshi_idx [fed_match; btc_match]) (map idx [fed_k; btc_k])
  /\ (length [fed_match; btc_match] <= length [fed_k; btc_k])%nat.
Proof.
  apply (one_candidate_per_left example_ext [fed_k; btc_k] [fed_p; btc_p]
           80%Q 24%Q [fed_match; btc_match]).
  - exact example_extract_one.
  - vm_compute. reflexivity.
Defined.

(** ** When the search fails *)


Lemma hours_apart_clash (a b : datetime) :
  aware a <> aware b -> hours_apart a b = Err TypeError.
Proof.
  intros H. unfold hours_apart, total_seconds_between.
  destruct (Bool.eqb (aware a) (aware b)) eqn:E; [|reflexivity].
  by apply Bool.eqb_prop in E.
Qed.


Lemma time_filter_clash (k_end : datetime) (mx : Q) (p : market)
    (p_end : datetime) :
  end_dt p = Some p_end -> aware k_end <> aware p_end ->
  forall (cands acc : list market),
    p ∈ cands -> time_filter k_end mx cands acc = Err TypeError.
Proof.
  intros Ep Hne. induction cands as [|q cands IH]; intros acc Hp; simpl.
  - by apply not_elem_of_nil in Hp.
  - apply elem_of_cons in Hp as [<-|Hp].
    + rewrite Ep. by rewrite (hours_apart_clash _ _ Hne).
    + destruct (end_dt q) as [q_end|]; [|by apply IH].
      destruct (hours_apart k_end q_end) as [h|e] eqn:Eh; simpl.
      * destruct (Qle_bool h mx); by apply IH.
      * unfold hours_apart, total_seconds_between in Eh.
        destruct (Bool.eqb (aware k_end) (aware q_end)); simpl in Eh;
          [discriminate|]. by injection Eh as <-.
Qed.







Lemma find_loop_clash (ext : External) (poly : list market) (th mx : Q)
    (k p : market) (k_end p_end : datetime) :
  p ∈ poly -> domain p = domain k ->
  end_dt k = Some k_end -> end_dt p = Some p_end ->
  aware k_end <> aware p_end ->
  forall kalshi acc,
    k ∈ kalshi ->
    exists e, find_loop ext (group_by_domain poly) th mx kalshi acc = Err e.
Proof.
  intros Hp Hd Ek Ep Hne.
  assert (Hb : p ∈ default [] (group_by_domain poly !! domain k)).
  { unfold group_by_domain. rewrite group_by_domain_fold, lookup_empty. simpl.
    by apply list_elem_of_filter. }
  induction kalshi as [|h kalshi IH]; intros acc Hk.
  - by apply not_elem_of_nil in Hk.
  - apply elem_of_cons in Hk as [<-|Hk]; simpl.
    + rewrite bool_decide_eq_false_2.
      * rewrite Ek.
        rewrite (time_filter_clash k_end mx p p_end Ep Hne _ [] Hb). simpl.
        by eexists.
      * intros Hnil. rewrite Hnil in Hb. by apply not_elem_of_nil in Hb.
    + destruct (bool_decide (default [] (group_by_domain poly !! domain h) = []));
        [by apply IH|].
      destruct (match end_dt h with
                | Some h_end =>
                    time_filter h_end mx
                      (default [] (group_by_domain poly !! domain h)) []
                | None => Ok (default [] (group_by_domain poly !! domain h))
                end) as [cands|e]; simpl; [|by eexists].
      destruct (bool_decide (cands = [])); [by apply IH|].
      destruct (process_extract ext (text_norm h) (map text_norm cands) th)
        as [results|]; [|by apply IH].
      destruct (process_results h cands mx results acc) as [acc'|e]; simpl;
        [by apply IH|by eexists].
Qed.

(** X9. One clash is enough to lose the whole search: if some left record
    and some right record of the same domain both have an end time, one
    naive and the other aware, [find_matches] raises and returns no list,
    whatever else the corpora hold. *)
Theorem awareness_clash_aborts (ext : External) (kalshi poly : list market)
    (th mx : Q) (k p : market) (k_end p_end : datetime) :
  k ∈ kalshi -> p ∈ poly -> domain p = domain k ->
  end_dt k = Some k_end -> end_dt p = Some p_end ->
  aware k_end <> aware p_end ->
  exists e, find_matches ext kalshi poly th mx = Err e.
Proof.
  intros Hk Hp Hd Ek Ep Hne. unfold find_matches.
  by eapply find_loop_clash.
Qed.

Lemma awareness_clash_aborts_witness :
  poly_record dated_ext 0 naive_p_raw = Ok (Some naive_p)
  /\ exists e, find_matches dated_ext [btc_k; fed_k] [btc_p; naive_p] 80 24
               = Err e.
Proof.
  split; [vm_compute; reflexivity|].
  apply (awareness_clash_aborts dated_ext [btc_k; fed_k] [btc_p; naive_p]
           80%Q 24%Q fed_k naive_p noon (DateTime false 1730764800000000)).
  - right. left.
  - right. left.
  - vm_compute. reflexivity.
  - vm_compute. reflexivity.
  - vm_compute. reflexivity.
  - simpl. discriminate.
Defined.

(** ** More on the deduplicator *)

Lemma consumed_true_conflict (acc : list matched) (m : matched) :
  consumed acc m = true -> exists a, a ∈ acc /\ conflict a m.
Proof.
  unfold consumed. intros H. apply existsb_exists in H as (a & Ha & Hor).
  exists a. split; [by apply list_elem_of_In|].
  apply orb_true_iff in Hor as [H|H]; apply Nat.eqb_eq in H; [by left|by right].
Qed.

Lemma greedy_walk_keeps (l acc : list matched) (a : matched) :
  a ∈ acc -> a ∈ greedy_walk l acc.
Proof.
  intros Ha. destruct (greedy_walk_extends l acc) as [pk [-> _]].
  apply elem_of_app. by left.
Qed.

Lemma greedy_walk_dominant (l : list matched) : forall acc,
  StronglySorted (desc quality_score) l ->
  (forall a m, a ∈ acc -> m ∈ l -> (quality_score m <= quality_score a)%Q) ->
  forall m, m ∈ l ->
    m ∈ greedy_walk l acc
    \/ exists a, a ∈ greedy_walk l acc /\ conflict a m
                 /\ (quality_score m <= quality_score a)%Q.
Proof.
  induction l as [|x l IH]; intros acc Hs Hacc m Hm.
  - by apply not_elem_of_nil in Hm.
  - apply StronglySorted_inv in Hs as [Hs Hx]. simpl.
    assert (Hacc' : forall a m, a ∈ acc -> m ∈ l ->
                      (quality_score m <= quality_score a)%Q).
    { intros a m' Ha Hm'. apply Hacc; [done|by right]. }
    assert (Haccx : forall a m, a ∈ acc ++ [x] -> m ∈ l ->
                      (quality_score m <= quality_score a)%Q).
    { intros a m' Ha Hm'. apply elem_of_app in Ha as [Ha|Ha]; [by apply Hacc'|].
      apply list_elem_of_singleton in Ha as ->.
      by apply (proj1 (Forall_forall _ _) Hx). }
    apply elem_of_cons in Hm as [->|Hm].
    + destruct (consumed acc x) eqn:E.
      * right. destruct (consumed_true_conflict _ _ E) as (a & Ha & Hc).
        exists a. split; [by apply greedy_walk_keeps|]. split; [done|].
        apply Hacc; [done|by left].
      * left. apply greedy_walk_keeps, elem_of_app. right. by left.
    + destruct (consumed acc x); by apply IH.
Qed.

(** X10. The greedy walk leaves no candidate out without cause: every
    candidate handed to the deduplicator is either in the output, or
    competes for a record with a candidate of the output whose rank is at
    least its own. *)
Theorem deduplicate_matches_dominant (ms : list matched) (m : matched) :
  m ∈ ms ->
  m ∈ deduplicate_matches ms
  \/ exists a, a ∈ deduplicate_matches ms
               /\ (kalshi_idx a = kalshi_idx m \/ poly_idx a = poly_idx m)
               /\ (quality_score m <= quality_score a)%Q.
Proof.
  intros Hm. rewrite deduplicate_matches_walk.
  apply greedy_walk_dominant.
  - apply sort_desc_sorted.
  - intros a m' Ha. by apply not_elem_of_nil in Ha.
  - by rewrite sort_desc_perm.
Qed.

Lemma deduplicate_matches_dominant_witness :
  candidate 0 0 90
    ∈ deduplicate_matches [candidate 0 0 90; candidate 1 0 95; candidate 1 1 95]
  \/ exists a,
       a ∈ deduplicate_matches
             [candidate 0 0 90; candidate 1 0 95; candidate 1 1 95]
       /\ (kalshi_idx a = kalshi_idx (candidate 0 0 90)
           \/ poly_idx a = poly_idx (candidate 0 0 90))
       /\ (quality_score (candidate 0 0 90) <= quality_score a)%Q.
Proof.
  apply (deduplicate_matches_dominant
           [candidate 0 0 90; candidate 1 0 95; candidate 1 1 95]).
  left.
Defined.

Lemma strongly_sorted_sublist {A : Type} (R : A -> A -> Prop) (l1 l2 : list A) :
  sublist l1 l2 -> StronglySorted R l2 -> StronglySorted R l1.
Proof.
  induction 1 as [|x l1 l2 Hsub IH|x l1 l2 Hsub IH]; intros Hs.
  - constructor.
  - apply StronglySorted_inv in Hs as [Hs Hx]. constructor; [by apply IH|].
    apply Forall_forall. intros y Hy.
    apply (proj1 (Forall_forall _ _) Hx). by eapply elem_of_sublist.
  - apply StronglySorted_inv in Hs as [Hs _]. by apply IH.
Qed.

Lemma deduplicate_matches_sorted (ms : list matched) :
  StronglySorted (desc quality_score) (deduplicate_matches ms).
Proof.
  rewrite deduplicate_matches_walk.
  destruct (greedy_walk_extends (sort_desc quality_score ms) []) as [pk [-> Hs]].
  simpl. eapply strongly_sorted_sublist; [exact Hs|]. apply sort_desc_sorted.
Qed.



Lemma greedy_walk_conflict_free (l : list matched) : forall acc,
  injective_on_both_sides (acc ++ l) -> greedy_walk l acc = acc ++ l.
Proof.
  induction l as [|x l IH]; intros acc Hinj; simpl.
  - by rewrite app_nil_r.
  - assert (E : consumed acc x = false).
    { destruct (consumed acc x) eqn:E; [|reflexivity]. exfalso.
      destruct (consumed_true_conflict _ _ E) as (a & Ha & Hc).
      destruct Hinj as [Hk Hp]. rewrite map_app in Hk, Hp.
      apply NoDup_app in Hk as (_ & Hk & _).
      apply NoDup_app in Hp as (_ & Hp & _).
      destruct Hc as [Hc|Hc].
      - apply (Hk (kalshi_idx a)); [by apply list_elem_of_fmap_2|].
        rewrite Hc. simpl. by left.
      - apply (Hp (poly_idx a)); [by apply list_elem_of_fmap_2|].
        rewrite Hc. simpl. by left. }
    rewrite E, IH; rewrite <- app_assoc; [reflexivity|exact Hinj].
Qed.

Lemma sort_desc_injective (ms : list matched) :
  injective_on_both_sides ms ->
  injective_on_both_sides (sort_desc quality_score ms).
Proof.
  intros [Hk Hp]. split.
  - by rewrite (sort_desc_perm quality_score ms).
  - by rewrite (sort_desc_perm quality_score ms).
Qed.

Lemma deduplicate_conflict_free (ms : list matched) :
  injective_on_both_sides ms ->
  deduplicate_matches ms = sort_desc quality_score ms.
Proof.
  intros Hinj. rewrite deduplicate_matches_walk.
  apply (greedy_walk_conflict_free _ []). simpl. by apply sort_desc_injective.
Qed.



Lemma sort_desc_of_sorted {A : Type} (key : A -> Q) (l : list A) :
  StronglySorted (desc key) l -> sort_desc key l = l.
Proof.
  induction l as [|x l IH]; intros Hs; simpl; [reflexivity|].
  apply StronglySorted_inv in Hs as [Hs Hx]. fold (sort_desc key l).
  rewrite (IH Hs). destruct l as [|y l]; simpl; [reflexivity|].
  apply Forall_cons in Hx as [Hxy _]. unfold desc in Hxy.
  by rewrite (proj2 (Qltb_ge _ _) Hxy).
Qed.

(** X13. Deduplicating twice changes nothing: the output of the
    deduplicator is a fixed point of the deduplicator. *)
Theorem deduplicate_matches_idempotent (ms : list matched) :
  deduplicate_matches (deduplicate_matches ms) = deduplicate_matches ms.
Proof.
  rewrite (deduplicate_conflict_free (deduplicate_matches ms)).
  - apply sort_desc_of_sorted, deduplicate_matches_sorted.
  - rewrite deduplicate_matches_walk.
    apply (greedy_walk_injective _ []). split; constructor.
Qed.

(** ** The semantic check *)

Lemma opposed_swap (a b : string) (pair : string * string) :
  opposed a b pair = opposed b a pair.
Proof.
  destruct pair as [w1 w2]. unfold opposed.
  destruct (Str.contains w1 a), (Str.contains w2 b), (Str.contains w2 a),
    (Str.contains w1 b); reflexivity.
Qed.

Lemma existsb_pointwise {A : Type} (f g : A -> bool) (l : list A) :
  (forall x, f x = g x) -> existsb f l = existsb g l.
Proof. intros H. induction l as [|x l IH]; simpl; [done|]. by rewrite H, IH. Qed.

(** X14. The semantic check does not depend on which text is the left one
    and which the right one. *)
Theorem semantic_similarity_check_symmetric (k_text p_text : string) :
  semantic_similarity_check k_text p_text
  = semantic_similarity_check p_text k_text.
Proof.
  unfold semantic_similarity_check.
  rewrite (existsb_pointwise _ (opposed (Str.lower p_text) (Str.lower k_text)))
    by (intros pair; apply opposed_swap).
  destruct (existsb _ opposite_pairs); [reflexivity|].
  rewrite (andb_comm (negb (bool_decide (bps_amounts (Str.lower k_text) = [])))).
  destruct (_ && _); [|reflexivity].
  by rewrite (comm_L (∩) (list_to_set (bps_amounts (Str.lower k_text)))).
Qed.

(** X15. A text fails the semantic check against a copy of itself exactly
    when it contains both words of some antonym pair; the basis-point
    comparison never rejects a text against itself. *)
Theorem semantic_similarity_check_self (t : string) :
  semantic_similarity_check t t = false
  <-> exists word1 word2,
        (word1, word2) ∈ opposite_pairs
        /\ Str.contains word1 (Str.lower t) = true
        /\ Str.contains word2 (Str.lower t) = true.
Proof.
  unfold semantic_similarity_check.
  destruct (existsb _ opposite_pairs) eqn:E.
  - split; [intros _|done].
    apply existsb_exists in E as ([w1 w2] & Hin & Ho).
    exists w1, w2. split; [by apply list_elem_of_In|].
    unfold opposed in Ho. apply orb_true_iff in Ho as [H|H];
      apply andb_true_iff in H as [H1 H2]; by split.
  - assert (Hbps : (if negb (bool_decide (bps_amounts (Str.lower t) = []))
                       && negb (bool_decide (bps_amounts (Str.lower t) = []))
                    then if bool_decide
                              ((list_to_set (bps_amounts (Str.lower t))
                                  : gset string)
                               ∩ list_to_set (bps_amounts (Str.lower t)) = ∅)
                         then false else true
                    else true) = true).
    { destruct (bps_amounts (Str.lower t)) as [|x l] eqn:El; [reflexivity|].
      rewrite (bool_decide_eq_false_2 (x :: l = [])) by discriminate.
      cbn [negb andb]. rewrite bool_decide_eq_false_2; [reflexivity|].
      intros Hempty.
      assert (Hx : x ∈ (list_to_set (x :: l) : gset string)
                       ∩ list_to_set (x :: l)).
      { apply elem_of_intersection. split; apply elem_of_list_to_set; by left. }
      rewrite Hempty in Hx. by apply not_elem_of_empty in Hx. }
    rewrite Hbps. split; [discriminate|].
    intros (w1 & w2 & Hin & H1 & H2). exfalso.
    assert (X : existsb (opposed (Str.lower t) (Str.lower t)) opposite_pairs
                = true).
    { apply existsb_exists. exists (w1, w2). split; [by apply list_elem_of_In|].
      unfold opposed. by rewrite H1, H2. }
    congruence.
Qed.

(** ** Upper and lower case *)

Lemma lower_char_idempotent (c : ascii) :
  Str.lower_char (Str.lower_char c) = Str.lower_char c.
Proof. destruct c as [[] [] [] [] [] [] [] []]; reflexivity. Qed.

Lemma lower_idempotent (t : string) : Str.lower (Str.lower t) = Str.lower t.
Proof.
  unfold Str.lower. rewrite chars_str. f_equal. unfold Str.lower_l.
  rewrite map_map. apply map_ext. intros c. apply lower_char_idempotent.
Qed.

(** X16. Letter case plays no part: lower-casing a text beforehand changes
    neither its entities nor its domain, and lower-casing both texts does
    not change the outcome of the semantic check. *)
Theorem case_insensitive (t u : string) :
  extract_entities_strict (Str.lower t) = extract_entities_strict t
  /\ classify_domain_strict (Str.lower t) = classify_domain_strict t
  /\ semantic_similarity_check (Str.lower t) (Str.lower u)
     = semantic_similarity_check t u.
Proof.
  unfold extract_entities_strict, classify_domain_strict,
    semantic_similarity_check.
  by rewrite !lower_idempotent.
Qed.

(** ** The entity vocabulary *)

Lemma add_matching_elem (tl : string) (table : list (string * regex)) :
  forall (acc : gset string) (e : string),
    e ∈ add_matching tl table acc
    <-> e ∈ acc \/ exists r, (e, r) ∈ table /\ search r tl = true.
Proof.
  unfold add_matching. induction table as [|[e0 r0] table IH]; intros acc e;
    simpl.
  - split; [by left|]. intros [H|(r & H & _)]; [done|].
    by apply not_elem_of_nil in H.
  - rewrite IH. simpl. split.
    + intros [H|(r & Hr & Hs)].
      * destruct (search r0 tl) eqn:E; [|by left].
        apply elem_of_union in H as [H|H]; [by left|].
        apply elem_of_singleton in H as ->. right. exists r0. split; [by left|done].
      * right. exists r. split; [by right|done].
    + intros [H|(r & Hr & Hs)].
      * left. destruct (search r0 tl); [|done]. by apply elem_of_union_l.
      * apply elem_of_cons in Hr as [[= -> ->]|Hr].
        -- left. rewrite Hs. apply elem_of_union_r. by apply elem_of_singleton.
        -- right. by exists r.
Qed.

Lemma extract_entities_iff (t : string) (e : string) :
  e ∈ extract_entities_strict t
  <-> exists r, (e, r) ∈ entity_tables /\ search r (Str.lower t) = true.
Proof.
  unfold extract_entities_strict, entity_tables.
  rewrite !add_matching_elem. split.
  - intros [[[[[H|H]|H]|H]|H]|H].
    + by apply not_elem_of_empty in H.
    + destruct H as (r & Hr & Hs). exists r. split; [|done].
      apply elem_of_app. by left.
    + destruct H as (r & Hr & Hs). exists r. split; [|done].
      rewrite !elem_of_app. right. by left.
    + destruct H as (r & Hr & Hs). exists r. split; [|done].
      rewrite !elem_of_app. right. right. by left.
    + destruct H as (r & Hr & Hs). exists r. split; [|done].
      rewrite !elem_of_app. right. right. right. by left.
    + destruct H as (r & Hr & Hs). exists r. split; [|done].
      rewrite !elem_of_app. right. right. right. by right.
  - intros (r & Hr & Hs). rewrite !elem_of_app in Hr.
    destruct Hr as [Hr|[Hr|[Hr|[Hr|Hr]]]].
    + do 4 left. right. by exists r.
    + do 3 left. right. by exists r.
    + do 2 left. right. by exists r.
    + left. right. by exists r.
    + right. by exists r.
Qed.

Lemma president_not_extracted (t : string) :
  "president" ∉ extract_entities_strict t.
Proof.
  intros H. apply extract_entities_iff in H as (r & Hr & _).
  apply (list_elem_of_fmap_2 fst) in Hr. simpl in Hr.
  vm_compute in Hr.
  repeat (apply elem_of_cons in Hr as [Hr|Hr]; [discriminate|]).
  by apply not_elem_of_nil in Hr.
Qed.

(** X17. A tag is among the extracted entities exactly when one of its
    patterns in the five tables is found in the lower-cased text; the tags
    are found independently of one another. In particular the tag
    [president], which the politics rule of the gate asks for, is in no
    table and is never extracted. *)
Theorem extract_entities_exact (t : string) (e : string) :
  (e ∈ extract_entities_strict t
   <-> exists r, (e, r) ∈ entity_tables /\ search r (Str.lower t) = true)
  /\ ("president" ∉ extract_entities_strict t).
Proof.
  split; [apply extract_entities_iff|apply president_not_extracted].
Qed.

(** ** The score in the gate *)

Lemma numbers_related_monotone (k p : market) (sc sc' : Q) :
  (sc <= sc')%Q ->
  numbers_related k p sc = true -> numbers_related k p sc' = true.
Proof.
  intros Hle. unfold numbers_related.
  destruct (_ && _); [|done]. destruct (bool_decide _); [|done].
  destruct (existsb _ _); simpl; [done|].
  destruct (Qltb sc 95) eqn:E; [discriminate|]. intros _.
  apply Qltb_ge in E.
  by rewrite (proj2 (Qltb_ge sc' 95) (Qle_trans _ _ _ E Hle)).
Qed.

(** X18. A higher text score never turns an accepted pair into a rejected
    one: the gate is monotone in the score. *)
Theorem gate_monotone_in_score (k p : market) (sc sc' : Q) :
  (sc <= sc')%Q ->
  is_high_quality_match k p sc = true ->
  is_high_quality_match k p sc' = true.
Proof.
  intros Hle Hpass.
  destruct (gate_accepts k p sc Hpass) as (Hsc & Hne & Hr & Hsem & Hdom & Hnum).
  unfold is_high_quality_match.
  rewrite (proj2 (Qltb_ge sc' 80) (Qle_trans _ _ _ Hsc Hle)).
  rewrite (bool_decide_eq_false_2 _ Hne).
  rewrite (proj2 (Qltb_ge _ _) Hr), Hsem, Hdom.
  by rewrite (numbers_related_monotone k p sc sc' Hle Hnum).
Qed.

Lemma gate_monotone_in_score_witness :
  is_high_quality_match fed_k fed_p 100 = true.
Proof.
  apply (gate_monotone_in_score fed_k fed_p 85 100).
  - discriminate.
  - vm_compute. reflexivity.
Defined.

(** ** The records the loader keeps *)

Lemma load_loop_kept (record : nat -> gmap string jval -> result (option market)) :
  forall (raw : list (gmap string jval)) (i : nat) (acc r : list market),
    load_loop record i raw acc = Ok r ->
    exists new,
      r = acc ++ new
      /\ forall mk, mk ∈ new
           <-> exists j m, raw !! j = Some m
                           /\ record (i + j)%nat m = Ok (Some mk).
Proof.
  induction raw as [|m0 raw IH]; intros i acc r; simpl.
  - intros [= <-]. exists []. split; [by rewrite app_nil_r|].
    intros mk. split; [intros H; by apply not_elem_of_nil in H|].
    intros (j & m & Hj & _). by rewrite lookup_nil in Hj.
  - destruct (record i m0) as [[mk0|]|e] eqn:E; simpl; [| |discriminate].
    + intros H. destruct (IH _ _ _ H) as (new & -> & Hnew).
      exists (mk0 :: new). split; [by rewrite <- app_assoc|].
      intros mk. rewrite elem_of_cons, Hnew. split.
      * intros [->|(j & m & Hj & Hr)].
        -- exists 0%nat, m0. by rewrite Nat.add_0_r.
        -- exists (S j), m. by rewrite Nat.add_succ_r.
      * intros ([|j] & m & Hj & Hr).
        -- left. simpl in Hj. injection Hj as <-.
           rewrite Nat.add_0_r, E in Hr. by injection Hr.
        -- right. exists j, m. by rewrite Nat.add_succ_r in Hr.
    + intros H. destruct (IH _ _ _ H) as (new & -> & Hnew).
      exists new. split; [done|].
      intros mk. rewrite Hnew. split.
      * intros (j & m & Hj & Hr). exists (S j), m. by rewrite Nat.add_succ_r.
      * intros ([|j] & m & Hj & Hr).
        -- simpl in Hj. injection Hj as <-.
           rewrite Nat.add_0_r, E in Hr. discriminate.
        -- exists j, m. by rewrite Nat.add_succ_r in Hr.
Qed.

Lemma load_loop_fails (record : nat -> gmap string jval -> result (option market))
    (bad : gmap string jval -> Prop) :
  (forall i m, (exists e, record i m = Err e) <-> bad m) ->
  forall (raw : list (gmap string jval)) (i : nat) (acc : list market),
    (exists e, load_loop record i raw acc = Err e)
    <-> exists m, m ∈ raw /\ bad m.
Proof.
  intros Hbad. induction raw as [|m0 raw IH]; intros i acc; simpl.
  - split; [intros [e H]; discriminate|].
    intros (m & H & _). by apply not_elem_of_nil in H.
  - destruct (record i m0) as [[mk0|]|e] eqn:E; simpl.
    + rewrite IH. split; intros (m & Hm & Hb).
      * exists m. split; [by right|done].
      * apply elem_of_cons in Hm as [->|Hm]; [|by exists m].
        apply Hbad with (i := i) in Hb as [e Hb]. congruence.
    + rewrite IH. split; intros (m & Hm & Hb).
      * exists m. split; [by right|done].
      * apply elem_of_cons in Hm as [->|Hm]; [|by exists m].
        apply Hbad with (i := i) in Hb as [e Hb]. congruence.
    + split; [intros _|intros _; by eexists].
      exists m0. split; [by left|]. apply (Hbad i). by eexists.
Qed.

Lemma kalshi_record_kept (ext : External) (i : nat) (m : gmap string jval)
    (mk : market) :
  kalshi_record ext i m = Ok (Some mk)
  <-> exists desc,
        get_stripped m "title" = Ok (title mk)
        /\ get_stripped m "description" = Ok desc
        /\ title mk <> ""
        /\ mk = kalshi_market ext i m (title mk) desc.
Proof.
  unfold kalshi_record. split.
  - destruct (get_stripped m "title") as [t|]; simpl; [|discriminate].
    destruct (get_stripped m "description") as [dsc|]; simpl; [|discriminate].
    destruct (String.eqb t "") eqn:E; [discriminate|].
    intros [= <-]. simpl. exists dsc. repeat split.
    intros ->. by rewrite String.eqb_refl in E.
  - intros (dsc & -> & -> & Hne & Hmk). simpl.
    apply String.eqb_neq in Hne. rewrite Hne. by rewrite <- Hmk.
Qed.

Lemma poly_record_kept (ext : External) (i : nat) (m : gmap string jval)
    (mk : market) :
  poly_record ext i m = Ok (Some mk)
  <-> exists desc,
        get_stripped m "question" = Ok (title mk)
        /\ get_stripped m "description" = Ok desc
        /\ title mk <> ""
        /\ mk = poly_market ext i m (title mk) desc.
Proof.
  unfold poly_record. split.
  - destruct (get_stripped m "question") as [t|]; simpl; [|discriminate].
    destruct (get_stripped m "description") as [dsc|]; simpl; [|discriminate].
    destruct (String.eqb t "") eqn:E; [discriminate|].
    intros [= <-]. simpl. exists dsc. repeat split.
    intros ->. by rewrite String.eqb_refl in E.
  - intros (dsc & -> & -> & Hne & Hmk). simpl.
    apply String.eqb_neq in Hne. rewrite Hne. by rewrite <- Hmk.
Qed.

Lemma kalshi_record_err (ext : External) (i : nat) (m : gmap string jval) :
  (exists e, kalshi_record ext i m = Err e)
  <-> not_a_string (m !! "title") \/ not_a_string (m !! "description").
Proof. apply (record_err ext i m "title" (kalshi_market ext)). Qed.

Lemma poly_record_err (ext : External) (i : nat) (m : gmap string jval) :
  (exists e, poly_record ext i m = Err e)
  <-> not_a_string (m !! "question") \/ not_a_string (m !! "description").
Proof. apply (record_err ext i m "question" (poly_market ext)). Qed.

Lemma load_and_preprocess_ok (ext : External)
    (kalshi_raw poly_raw : list (gmap string jval)) (kalshi poly : list market) :
  load_and_preprocess ext kalshi_raw poly_raw = Ok (kalshi, poly)
  <-> load_loop (kalshi_record ext) 0 kalshi_raw [] = Ok kalshi
      /\ load_loop (poly_record ext) 0 poly_raw [] = Ok poly.
Proof.
  unfold load_and_preprocess.
  destruct (load_loop (kalshi_record ext) 0 kalshi_raw []) as [ks|e]; simpl.
  - destruct (load_loop (poly_record ext) 0 poly_raw []) as [ps|e]; simpl.
    + split; [by intros [= <- <-]|by intros [[= <-] [= <-]]].
    + split; [discriminate|by intros [_ ?]].
  - split; [discriminate|by intros [? _]].
Qed.



(** ** When the loader fails *)

Lemma get_stripped_err_kind (m : gmap string jval) (key : string) (e : exn) :
  get_stripped m key = Err e -> e = AttributeError.
Proof.
  unfold get_stripped. destruct (m !! key) as [[]|]; try discriminate;
    by intros [= <-].
Qed.

Lemma record_err_kind (ext : External) (i : nat) (m : gmap string jval)
    (e : exn) :
  (kalshi_record ext i m = Err e -> e = AttributeError)
  /\ (poly_record ext i m = Err e -> e = AttributeError).
Proof.
  unfold kalshi_record, poly_record. split.
  - destruct (get_stripped m "title") as [t|e1] eqn:E1; simpl.
    + destruct (get_stripped m "description") as [dsc|e2] eqn:E2; simpl.
      * destruct (String.eqb t ""); discriminate.
      * intros [= <-]. by eapply get_stripped_err_kind.
    + intros [= <-]. by eapply get_stripped_err_kind.
  - destruct (get_stripped m "question") as [t|e1] eqn:E1; simpl.
    + destruct (get_stripped m "description") as [dsc|e2] eqn:E2; simpl.
      * destruct (String.eqb t ""); discriminate.
      * intros [= <-]. by eapply get_stripped_err_kind.
    + intros [= <-]. by eapply get_stripped_err_kind.
Qed.

Lemma load_loop_err_kind
    (record : nat -> gmap string jval -> result (option market)) :
  (forall i m e, record i m = Err e -> e = AttributeError) ->
  forall (raw : list (gmap string jval)) (i : nat) (acc : list market) (e : exn),
    load_loop record i raw acc = Err e -> e = AttributeError.
Proof.
  intros Hrec. induction raw as [|m0 raw IH]; intros i acc e; simpl.
  - discriminate.
  - destruct (record i m0) as [[mk0|]|e0] eqn:E; simpl; try apply IH.
    intros [= <-]. by eapply Hrec.
Qed.

(** X20. The loader fails, with [AttributeError], exactly when some raw
    record of either collection has a title (or question) or a description
    that is present and is not a string; one such record discards the
    whole load, the sound records with it. *)
Theorem loader_fails_iff (ext : External)
    (kalshi_raw poly_raw : list (gmap string jval)) :
  ((exists e, load_and_preprocess ext kalshi_raw poly_raw = Err e)
   <-> (exists m, m ∈ kalshi_raw
                  /\ (not_a_string (m !! "title")
                      \/ not_a_string (m !! "description")))
       \/ (exists m, m ∈ poly_raw
                     /\ (not_a_string (m !! "question")
                         \/ not_a_string (m !! "description"))))
  /\ (forall e, load_and_preprocess ext kalshi_raw poly_raw = Err e ->
                e = AttributeError).
Proof.
  pose proof (load_loop_fails (kalshi_record ext) _ (kalshi_record_err ext)
                kalshi_raw 0 []) as Hk.
  pose proof (load_loop_fails (poly_record ext) _ (poly_record_err ext)
                poly_raw 0 []) as Hp.
  pose proof (load_loop_err_kind (kalshi_record ext)
                (fun i m e => proj1 (record_err_kind ext i m e))
                kalshi_raw 0 []) as Kk.
  pose proof (load_loop_err_kind (poly_record ext)
                (fun i m e => proj2 (record_err_kind ext i m e))
                poly_raw 0 []) as Kp.
  unfold load_and_preprocess.
  destruct (load_loop (kalshi_record ext) 0 kalshi_raw []) as [ks|e1]; simpl.
  - destruct (load_loop (poly_record ext) 0 poly_raw []) as [ps|e2]; simpl.
    + split; [|discriminate]. split; [intros [e H]; discriminate|].
      intros [H|H]; [apply Hk in H|apply Hp in H]; destruct H as [e H];
        discriminate.
    + split; [|intros e [= <-]; by apply Kp].
      split; [intros _; right; apply Hp; by eexists|intros _; by eexists].
  - split; [|intros e [= <-]; by apply Kk].
    split; [intros _; left; apply Hk; by eexists|intros _; by eexists].
Qed.

(** ** The order of the loaded records *)

Lemma load_loop_ordered
    (record : nat -> gmap string jval -> result (option market)) :
  (forall i m mk, record i m = Ok (Some mk) -> idx mk = i) ->
  forall (raw : list (gmap string jval)) (i : nat) (acc r : list market),
    StronglySorted lt (map idx acc) ->
    (forall a, a ∈ acc -> (idx a < i)%nat) ->
    load_loop record i raw acc = Ok r ->
    StronglySorted lt (map idx r)
    /\ (length r <= length acc + length raw)%nat
    /\ (forall a, a ∈ r -> (idx a < i + length raw)%nat).
Proof.
  intros Hrec. induction raw as [|m raw IH]; intros i acc r Hs Hlt; simpl.
  - intros [= <-]. repeat split; [done|lia|].
    intros a Ha. specialize (Hlt a Ha). lia.
  - destruct (record i m) as [[mk|]|e] eqn:E; simpl; [| |discriminate].
    + intros H. apply IH in H as (H1 & H2 & H3).
      * repeat split; [done|rewrite length_app in H2; simpl in H2; lia|].
        intros a Ha. specialize (H3 a Ha). lia.
      * rewrite map_app. simpl. apply StronglySorted_app. repeat split.
        -- intros x y Hx Hy. apply list_elem_of_singleton in Hy as ->.
           apply list_elem_of_fmap in Hx as (a & -> & Ha).
           rewrite (Hrec _ _ _ E). by apply Hlt.
        -- done.
        -- repeat constructor.
      * intros a Ha. apply elem_of_app in Ha as [Ha|Ha].
        -- specialize (Hlt a Ha). lia.
        -- apply list_elem_of_singleton in Ha as ->.
           rewrite (Hrec _ _ _ E). lia.
    + intros H. apply IH in H as (H1 & H2 & H3).
      * repeat split; [done|lia|].
        intros a Ha. specialize (H3 a Ha). lia.
      * done.
      * intros a Ha. specialize (Hlt a Ha). lia.
Qed.

(** X21. The loaded records keep the order of the raw array: in each
    corpus the indices increase strictly, stay below the length of the raw
    array, and there are at most as many records as raw records. *)
Theorem loader_keeps_order (ext : External)
    (kalshi_raw poly_raw : list (gmap string jval)) (kalshi poly : list market) :
  load_and_preprocess ext kalshi_raw poly_raw = Ok (kalshi, poly) ->
  StronglySorted lt (map idx kalshi)
  /\ StronglySorted lt (map idx poly)
  /\ (length kalshi <= length kalshi_raw)%nat
  /\ (length poly <= length poly_raw)%nat
  /\ (forall k, k ∈ kalshi -> (idx k < length kalshi_raw)%nat)
  /\ (forall p, p ∈ poly -> (idx p < length poly_raw)%nat).
Proof.
  intros Hload. apply load_and_preprocess_ok in Hload as [Hk Hp].
  apply (load_loop_ordered (kalshi_record ext)) in Hk as (K1 & K2 & K3).
  - apply (load_loop_ordered (poly_record ext)) in Hp as (P1 & P2 & P3).
    + by repeat split.
    + intros i m mk H. apply poly_record_kept in H as (dsc & _ & _ & _ & ->).
      reflexivity.
    + constructor.
    + intros a Ha. by apply not_elem_of_nil in Ha.
  - intros i m mk H. apply kalshi_record_kept in H as (dsc & _ & _ & _ & ->).
    reflexivity.
  - constructor.
  - intros a Ha. by apply not_elem_of_nil in Ha.
Qed.

Lemma loader_keeps_order_witness :
  StronglySorted lt (map idx [fed_k; btc_k])
  /\ StronglySorted lt (map idx [fed_p; btc_p])
  /\ (length [fed_k; btc_k] <= length [fed_k_raw; btc_k_raw])%nat
  /\ (length [fed_p; btc_p] <= length [fed_p_raw; btc_p_raw])%nat
  /\ (forall k, k ∈ [fed_k; btc_k] -> (idx k < length [fed_k_raw; btc_k_raw])%nat)
  /\ (forall p, p ∈ [fed_p; btc_p] -> (idx p < length [fed_p_raw; btc_p_raw])%nat).
Proof.
  apply (loader_keeps_order example_ext).
  vm_compute. reflexivity.
Defined.

(** ** What a written document holds *)

Lemma loaded_left (ext : External)
    (kalshi_raw poly_raw : list (gmap string jval)) (kalshi poly : list market) :
  load_and_preprocess ext kalshi_raw poly_raw = Ok (kalshi, poly) ->
  forall mk, mk ∈ kalshi ->
    exists m desc,
      kalshi_raw !! idx mk = Some m
      /\ get_stripped m "title" = Ok (title mk)
      /\ mk = kalshi_market ext (idx mk) m (title mk) desc.
Proof.
  intros Hload mk Hmk. apply load_and_preprocess_ok in Hload as [Hk _].
  destruct (load_loop_kept _ _ _ _ _ Hk) as (new & -> & Hnew).
  apply Hnew in Hmk as (j & m & Hj & Hr). simpl in Hr.
  apply kalshi_record_kept in Hr as (dsc & Ht & _ & _ & Hmk).
  assert (Hidx : idx mk = j) by (by rewrite Hmk).
  exists m, dsc. rewrite Hidx. by repeat split.
Qed.

Lemma loaded_right (ext : External)
    (kalshi_raw poly_raw : list (gmap string jval)) (kalshi poly : list market) :
  load_and_preprocess ext kalshi_raw poly_raw = Ok (kalshi, poly) ->
  forall mk, mk ∈ poly ->
    exists m desc,
      poly_raw !! idx mk = Some m
      /\ get_stripped m "question" = Ok (title mk)
      /\ mk = poly_market ext (idx mk) m (title mk) desc.
Proof.
  intros Hload mk Hmk. apply load_and_preprocess_ok in Hload as [_ Hp].
  destruct (load_loop_kept _ _ _ _ _ Hp) as (new & -> & Hnew).
  apply Hnew in Hmk as (j & m & Hj & Hr). simpl in Hr.
  apply poly_record_kept in Hr as (dsc & Ht & _ & _ & Hmk).
  assert (Hidx : idx mk = j) by (by rewrite Hmk).
  exists m, dsc. rewrite Hidx. by repeat split.
Qed.

Lemma main_written (ext : External) (now : string)
    (kalshi_raw poly_raw : list (gmap string jval)) (doc : artifact) :
  main ext now kalshi_raw poly_raw = Ok (Some doc) ->
  exists kalshi poly pooled,
    load_and_preprocess ext kalshi_raw poly_raw = Ok (kalshi, poly)
    /\ find_matches ext kalshi poly 80 24 = Ok pooled
    /\ doc = save_matches now (deduplicate_matches pooled).
Proof.
  unfold main.
  destruct (load_and_preprocess ext kalshi_raw poly_raw) as [[kalshi poly]|e];
    simpl; [|discriminate].
  destruct (_ || _); [discriminate|].
  destruct (find_matches ext kalshi poly 80 24) as [pooled|e] eqn:Ef; simpl;
    [|discriminate].
  intros [= <-]. by exists kalshi, poly, pooled.
Qed.

Lemma distinct_below (l : list nat) (n : nat) :
  NoDup l -> (forall x, x ∈ l -> (x < n)%nat) -> (length l <= n)%nat.
Proof.
  intros Hnd Hlt. rewrite <- (length_seq n 0).
  apply submseteq_length, NoDup_submseteq; [done|].
  intros x Hx. apply elem_of_seq. specialize (Hlt x Hx). lia.
Qed.

(** X22. A document the run writes refers back to its input. Its count is
    the length of its match list, which is in descending order of rank and
    uses no left and no right index twice, so the count exceeds the length
    of neither raw array. Every match names, by its two indices, a raw
    record of each array, and carries their stripped titles and their
    identifiers (the empty string where the raw record has none). *)
Theorem written_document_refers_back (ext : External) (now : string)
    (kalshi_raw poly_raw : list (gmap string jval)) (doc : artifact) :
  main ext now kalshi_raw poly_raw = Ok (Some doc) ->
  total_matches doc = length (matches doc)
  /\ (total_matches doc <= length kalshi_raw)%nat
  /\ (total_matches doc <= length poly_raw)%nat
  /\ NoDup (map kalshi_idx (matches doc))
  /\ NoDup (map poly_idx (matches doc))
  /\ StronglySorted (fun a b => quality_score b <= quality_score a)%Q
       (matches doc)
  /\ (forall m, m ∈ matches doc ->
        exists k_raw p_raw,
          kalshi_raw !! kalshi_idx m = Some k_raw
          /\ poly_raw !! poly_idx m = Some p_raw
          /\ get_stripped k_raw "title" = Ok (kalshi_title m)
          /\ get_stripped p_raw "question" = Ok (poly_title m)
          /\ kalshi_id m = default (JStr "") (k_raw !! "conditionId")
          /\ poly_id m = default (JStr "") (p_raw !! "id")).
Proof.
  intros Hmain.
  destruct (main_written _ _ _ _ _ Hmain)
    as (kalshi & poly & pooled & Hload & Hfind & ->). simpl.
  assert (Hinj : injective_on_both_sides (deduplicate_matches pooled)).
  { rewrite deduplicate_matches_walk.
    apply (greedy_walk_injective _ []). split; constructor. }
  destruct Hinj as [Hik Hip].
  assert (Hback : forall m, m ∈ deduplicate_matches pooled ->
            exists k_raw p_raw,
              kalshi_raw !! kalshi_idx m = Some k_raw
              /\ poly_raw !! poly_idx m = Some p_raw
              /\ get_stripped k_raw "title" = Ok (kalshi_title m)
              /\ get_stripped p_raw "question" = Ok (poly_title m)
              /\ kalshi_id m = default (JStr "") (k_raw !! "conditionId")
              /\ poly_id m = default (JStr "") (p_raw !! "id")).
  { intros m Hm.
    destruct (find_matches_pairs ext kalshi poly 80 24 pooled Hfind m
                (or_intror Hm))
      as (k & p & sc & td & Hk & Hp & _ & _ & _ & _ & ->).
    destruct (loaded_left _ _ _ _ _ Hload k Hk) as (mk & dk & Hik' & Htk & Ek).
    destruct (loaded_right _ _ _ _ _ Hload p Hp) as (mp & dp & Hip' & Htp & Ep).
    exists mk, mp. simpl. repeat split; try done.
    - by rewrite Ek.
    - by rewrite Ep. }
  repeat split; try done.
  - rewrite <- (length_map kalshi_idx). apply distinct_below; [done|].
    intros x Hx. apply list_elem_of_fmap in Hx as (m & -> & Hm).
    destruct (Hback m Hm) as (k_raw & _ & Hl & _). by eapply lookup_lt_Some.
  - rewrite <- (length_map poly_idx). apply distinct_below; [done|].
    intros x Hx. apply list_elem_of_fmap in Hx as (m & -> & Hm).
    destruct (Hback m Hm) as (_ & p_raw & _ & Hl & _). by eapply lookup_lt_Some.
  - apply deduplicate_matches_sorted.
Qed.

Lemma written_document_refers_back_witness :
  let doc := save_matches "" [fed_match; btc_match] in
  total_matches doc = length (matches doc)
  /\ (total_matches doc <= length [fed_k_raw; btc_k_raw])%nat
  /\ (total_matches doc <= length [fed_p_raw; btc_p_raw])%nat
  /\ NoDup (map kalshi_idx (matches doc))
  /\ NoDup (map poly_idx (matches doc))
  /\ StronglySorted (fun a b => quality_score b <= quality_score a)%Q
       (matches doc)
  /\ (forall m, m ∈ matches doc ->
        exists k_raw p_raw,
          [fed_k_raw; btc_k_raw] !! kalshi_idx m = Some k_raw
          /\ [fed_p_raw; btc_p_raw] !! poly_idx m = Some p_raw
          /\ get_stripped k_raw "title" = Ok (kalshi_title m)
          /\ get_stripped p_raw "question" = Ok (poly_title m)
          /\ kalshi_id m = default (JStr "") (k_raw !! "conditionId")
          /\ poly_id m = default (JStr "") (p_raw !! "id")).
Proof.
  apply (written_document_refers_back example_ext ""
           [fed_k_raw; btc_k_raw] [fed_p_raw; btc_p_raw]).
  vm_compute. reflexivity.
Defined.

Lemma classify_closed (t : string) :
  classify_domain_strict t
  ∈ ["politics"; "macro"; "crypto"; "finance"; "tech"; "sports";
     "entertainment"; "other"].
Proof.
  unfold classify_domain_strict.
  repeat (match goal with
          | |- context [if search ?r ?x then _ else _] => destruct (search r x)
          end);
    repeat (first [left | right]).
Qed.

Lemma shared_required (k p : market) (required : gset string) :
  entities k ∩ entities p ∩ required <> ∅ ->
  exists e, e ∈ sorted (entities k ∩ entities p)
            /\ e ∈ entities k /\ e ∈ required.
Proof.
  intros Hne. apply set_choose_L in Hne as [e He].
  apply elem_of_intersection in He as [He Hr].
  exists e. split; [by apply sorted_elem|]. split; [|done].
  by apply elem_of_intersection in He as [? _].
Qed.

Lemma emitted_within_day (h : Q) (t : Q) :
  (0 <= h)%Q -> (h <= 24)%Q ->
  emitted_time_diff (Some h) = Some t -> (0 <= t)%Q /\ (t <= 24)%Q.
Proof.
  intros H0 H24. simpl. destruct (Qeq_bool h 0); [discriminate|].
  intros [= <-]. split; [by apply py_round_nonneg|].
  assert (E : (inject_Z 240 / inject_Z (10 ^ Z.of_nat 1) == 24)%Q)
    by reflexivity.
  rewrite <- E. apply py_round_le. by rewrite E.
Qed.

(** X23. Every match of a document the run writes has a text score of at
    least 80, an entity overlap between 0.3 and 1 and a number overlap
    between 0 and 1; its domain is one of the eight tags; in the politics
    domain its shared entities include trump, biden, harris or election,
    in the crypto domain one of the eight crypto assets, in the macro
    domain one of the five monetary entities; and its time difference, if
    it has one, lies between 0 and 24 hours. *)
Theorem written_document_content (ext : External) (now : string)
    (kalshi_raw poly_raw : list (gmap string jval)) (doc : artifact)
    (m : matched) :
  main ext now kalshi_raw poly_raw = Ok (Some doc) ->
  m ∈ matches doc ->
  (80 <= score m)%Q
  /\ (3 # 10 <= entity_overlap m)%Q /\ (entity_overlap m <= 1)%Q
  /\ (0 <= number_overlap m)%Q /\ (number_overlap m <= 1)%Q
  /\ match_domain m ∈ ["politics"; "macro"; "crypto"; "finance"; "tech";
                       "sports"; "entertainment"; "other"]
  /\ (match_domain m = "politics" ->
      exists e, e ∈ shared_entities m
                /\ e ∈ ["trump"; "biden"; "harris"; "election"])
  /\ (match_domain m = "crypto" ->
      exists e, e ∈ shared_entities m
                /\ e ∈ ["bitcoin"; "btc"; "ethereum"; "eth"; "solana"; "sol";
                        "dogecoin"; "doge"])
  /\ (match_domain m = "macro" ->
      exists e, e ∈ shared_entities m
                /\ e ∈ ["federal reserve"; "fed"; "interest rate";
                        "unemployment"; "inflation"])
  /\ (forall t, time_diff_hours m = Some t -> (0 <= t)%Q /\ (t <= 24)%Q).
Proof.
  intros Hmain Hm.
  destruct (main_written _ _ _ _ _ Hmain)
    as (kalshi & poly & pooled & Hload & Hfind & ->). simpl in Hm.
  destruct (find_matches_pairs ext kalshi poly 80 24 pooled Hfind m
              (or_intror Hm))
    as (k & p & sc & td & Hk & Hp & _ & Hpass & Htd & Hw & ->).
  destruct (gate_accepts k p sc Hpass) as (Hsc & Hne & Hr & _ & Hdom & _).
  destruct (loaded_left _ _ _ _ _ Hload k Hk) as (mk & dk & _ & _ & Ek).
  assert (Hent : entities k = extract_entities_strict (text k))
    by (by rewrite Ek).
  assert (Hcls : domain k = classify_domain_strict (text k))
    by (by rewrite Ek).
  destruct (rounded_ratio_bounds (entities k) (entities p)) as [_ He1].
  destruct (rounded_ratio_bounds (numbers k) (numbers p)) as [Hn0 Hn1].
  simpl. split; [exact Hsc|]. split; [by apply py_round3_ge_03|].
  split; [exact He1|]. split; [exact Hn0|]. split; [exact Hn1|].
  split; [rewrite Hcls; apply classify_closed|].
  unfold domain_rule in Hdom.
  split; [|split; [|split]].
  - intros Hd. rewrite Hd in Hdom.
    replace (String.eqb "politics" "politics") with true in Hdom by reflexivity.
    apply negb_true_iff, bool_decide_eq_false in Hdom.
    destruct (shared_required k p _ Hdom) as (e & Hs & Hk' & Hreq).
    exists e. split; [exact Hs|].
    unfold political_entities in Hreq.
    rewrite !elem_of_union, !elem_of_singleton in Hreq.
    destruct Hreq as [[[[->| ->]| ->]| ->]| ->].
    + by left.
    + right. by left.
    + do 2 right. by left.
    + do 3 right. by left.
    + exfalso. rewrite Hent in Hk'. by apply president_not_extracted in Hk'.
  - intros Hd. rewrite Hd in Hdom.
    replace (String.eqb "crypto" "politics") with false in Hdom by reflexivity.
    replace (String.eqb "crypto" "crypto") with true in Hdom by reflexivity.
    apply negb_true_iff, bool_decide_eq_false in Hdom.
    destruct (shared_required k p _ Hdom) as (e & Hs & _ & Hreq).
    exists e. split; [exact Hs|].
    unfold crypto_entities in Hreq.
    rewrite !elem_of_union, !elem_of_singleton in Hreq.
    rewrite !elem_of_cons. tauto.
  - intros Hd. rewrite Hd in Hdom.
    replace (String.eqb "macro" "politics") with false in Hdom by reflexivity.
    replace (String.eqb "macro" "crypto") with false in Hdom by reflexivity.
    replace (String.eqb "macro" "macro") with true in Hdom by reflexivity.
    apply negb_true_iff, bool_decide_eq_false in Hdom.
    destruct (shared_required k p _ Hdom) as (e & Hs & _ & Hreq).
    exists e. split; [exact Hs|].
    unfold macro_entities in Hreq.
    rewrite !elem_of_union, !elem_of_singleton in Hreq.
    rewrite !elem_of_cons. tauto.
  - intros t Ht. destruct td as [h|]; [|discriminate].
    unfold final_time_diff in Htd.
    destruct (end_dt k) as [k_end|]; [|discriminate].
    destruct (end_dt p) as [p_end|]; [|discriminate].
    destruct (hours_apart k_end p_end) as [h'|e] eqn:Eh; simpl in Htd;
      [|discriminate].
    injection Htd as ->.
    apply (emitted_within_day h t); [|by apply Hw|exact Ht].
    by eapply hours_apart_nonneg.
Qed.

Lemma written_document_content_witness :
  (80 <= score fed_match)%Q
  /\ (3 # 10 <= entity_overlap fed_match)%Q /\ (entity_overlap fed_match <= 1)%Q
  /\ (0 <= number_overlap fed_match)%Q /\ (number_overlap fed_match <= 1)%Q
  /\ match_domain fed_match ∈ ["politics"; "macro"; "crypto"; "finance"; "tech";
                               "sports"; "entertainment"; "other"]
  /\ (match_domain fed_match = "politics" ->
      exists e, e ∈ shared_entities fed_match
                /\ e ∈ ["trump"; "biden"; "harris"; "election"])
  /\ (match_domain fed_match = "crypto" ->
      exists e, e ∈ shared_entities fed_match
                /\ e ∈ ["bitcoin"; "btc"; "ethereum"; "eth"; "solana"; "sol";
                        "dogecoin"; "doge"])
  /\ (match_domain fed_match = "macro" ->
      exists e, e ∈ shared_entities fed_match
                /\ e ∈ ["federal reserve"; "fed"; "interest rate";
                        "unemployment"; "inflation"])
  /\ (forall t, time_diff_hours fed_match = Some t -> (0 <= t)%Q /\ (t <= 24)%Q).
Proof.
  apply (written_document_content example_ext ""
           [fed_k_raw; btc_k_raw] [fed_p_raw; btc_p_raw]
           (save_matches "" [fed_match; btc_match]) fed_match).
  - vm_compute. reflexivity.
  - left.
Defined.

(** ** Texts without digits, texts without letters *)

Section Lacking.
Context (q : ascii -> bool).

(** If whatever follows fails on every text that lacks [q], so does the
    pattern followed by it. *)
Lemma rmatch_dead (r : regex) :
  forall (A : Type) (st : mstate) (k : mstate -> option A),
    lacks q (rest st) ->
    (forall st', lacks q (rest st') -> k st' = None) ->
    rmatch r st k = None.
Proof.
  induction r as [|p|r1 IH1 r2 IH2|r1 IH1 r2 IH2|r1 IH1| |r1 IH1|n r1 IH1];
    intros A st k Hst Hk; simpl.
  - by apply Hk.
  - destruct (rest st) as [|c cs] eqn:E; [reflexivity|].
    destruct (p c); [|reflexivity]. apply Hk. simpl.
    by apply Forall_cons in Hst as [_ ?].
  - apply IH1; [done|]. intros st' Hst'. by apply IH2.
  - rewrite IH1 by done. by apply IH2.
  - generalize (length (rest st)). intros fuel. revert st Hst.
    induction fuel as [|fuel IHf]; intros st Hst; [by apply Hk|].
    rewrite IH1; [by apply Hk|done|].
    intros st' Hst'. destruct (_ <? _)%nat; [by apply IHf|reflexivity].
  - destruct (at_boundary st); [by apply Hk|reflexivity].
  - destruct (rmatch r1 st (fun _ => Some tt)); [reflexivity|by apply Hk].
  - apply IH1; [done|]. intros st' Hst'. by apply Hk.
Qed.

Lemma needs_chr (p : ascii -> bool) :
  (forall c, p c = true -> q c = true) -> needs q (Chr p).
Proof.
  intros Hp A st k Hst. simpl. destruct (rest st) as [|c cs]; [reflexivity|].
  apply Forall_cons in Hst as [Hc _].
  destruct (p c) eqn:E; [|reflexivity]. apply Hp in E. congruence.
Qed.

Lemma needs_cat_l (r1 r2 : regex) : needs q r1 -> needs q (Cat r1 r2).
Proof. intros H A st k Hst. simpl. by apply H. Qed.

Lemma needs_cat_r (r1 r2 : regex) : needs q r2 -> needs q (Cat r1 r2).
Proof.
  intros H A st k Hst. simpl. apply rmatch_dead; [done|].
  intros st' Hst'. by apply H.
Qed.

Lemma needs_alt (r1 r2 : regex) : needs q r1 -> needs q r2 -> needs q (Alt r1 r2).
Proof. intros H1 H2 A st k Hst. simpl. rewrite H1 by done. by apply H2. Qed.

Lemma needs_grp (n : nat) (r : regex) : needs q r -> needs q (Grp n r).
Proof. intros H A st k Hst. simpl. by apply H. Qed.

(** An optional prefix before a pattern *)
Lemma needs_opt_cat (r1 r2 : regex) :
  needs q r1 -> needs q r2 -> needs q (Cat (Alt r1 Eps) r2).
Proof.
  intros H1 H2 A st k Hst. simpl. rewrite H1 by done. by apply H2.
Qed.

Lemma needs_never : needs q (NLook Eps).
Proof. intros A st k Hst. reflexivity. Qed.

Lemma search_from_lacking (r : regex) :
  needs q r -> forall sn rs, lacks q rs -> search_from r sn rs = false.
Proof.
  intros Hr sn rs. revert sn. induction rs as [|c rs IH]; intros sn Hrs; simpl.
  - by rewrite Hr.
  - rewrite Hr by done. apply IH. by apply Forall_cons in Hrs as [_ ?].
Qed.

End Lacking.

(** Reduces a pattern of the source to its constructors and discharges
    [needs] along its first characters. *)
Ltac needy :=
  lazymatch goal with
  | |- needs _ (Cat WordB _) => apply needs_cat_r; needy
  | |- needs _ (Cat (Alt _ Eps) _) => apply needs_opt_cat; needy
  | |- needs _ (Cat _ _) =>
      first [ apply needs_cat_l; solve [needy] | apply needs_cat_r; solve [needy] ]
  | |- needs _ (Alt _ _) => apply needs_alt; needy
  | |- needs _ (Grp _ _) => apply needs_grp; needy
  | |- needs _ (NLook Eps) => apply needs_never
  | |- needs _ (Chr _) =>
      apply needs_chr;
      let c := fresh "c" in let H := fresh "H" in
      intros c H;
      first [ exact H
            | apply Ascii.eqb_eq in H; rewrite <- H; reflexivity ]
  end.

Ltac unfold_pattern :=
  cbv [bounded cat alt words lit plus opt one_of ch d s w foldr map
       Str.chars list_ascii_of_string fst snd
       years_re percentages_re dollars_re bps_re prices_re amount
       bps_amount_re politics_re macro_re crypto_re finance_re tech_re
       sports_re entertainment_re].





Lemma entity_patterns_need_letter :
  Forall (fun ep => needs Str.is_lower_alpha (snd ep)) entity_tables.
Proof.
  cbv [entity_tables people_patterns crypto_patterns org_patterns places events
       app].
  repeat (apply Forall_cons; split); try apply Forall_nil_2;
    cbn [snd]; unfold_pattern; needy.
Qed.

Lemma domain_patterns_need_letter :
  Forall (needs Str.is_lower_alpha)
    [politics_re; macro_re; crypto_re; finance_re; tech_re; sports_re;
     entertainment_re].
Proof.
  repeat (apply Forall_cons; split); try apply Forall_nil_2;
    unfold_pattern; needy.
Qed.

Lemma lower_lacks_letter (t : string) :
  lacks is_letter (Str.chars t) ->
  lacks Str.is_lower_alpha (Str.chars (Str.lower t)).
Proof.
  unfold Str.lower. rewrite chars_str. unfold lacks, Str.lower_l.
  rewrite Forall_fmap. intros H. eapply Forall_impl; [exact H|].
  intros c. simpl. destruct c as [[] [] [] [] [] [] [] []]; done.
Qed.

Lemma gate_needs_entities (k p : market) (sc : Q) :
  entities k = ∅ \/ entities p = ∅ -> is_high_quality_match k p sc = false.
Proof.
  intros H. unfold is_high_quality_match.
  destruct (Qltb sc 80); [reflexivity|].
  assert (E : entities k ∩ entities p = ∅).
  { apply set_eq. intros x. rewrite elem_of_intersection.
    split; [|intros Hx; by apply not_elem_of_empty in Hx].
    intros [Hk Hp]. destruct H as [H|H]; rewrite H in *; done. }
  by rewrite (bool_decide_eq_true_2 _ E).
Qed.

(** X25. A text without any ASCII letter has no entity and falls in the
    domain [other]; a market whose entities were taken from such a text
    passes the gate with no partner, on either side and at any score. *)
Theorem no_letter_no_entity (t : string) :
  lacks is_letter (Str.chars t) ->
  extract_entities_strict t = ∅
  /\ classify_domain_strict t = "other"
  /\ (forall (k p : market) (sc : Q),
        entities k = extract_entities_strict t ->
        is_high_quality_match k p sc = false
        /\ is_high_quality_match p k sc = false).
Proof.
  intros Ht. apply lower_lacks_letter in Ht.
  assert (He : extract_entities_strict t = ∅).
  { apply set_eq. intros e. split; [|intros H; by apply not_elem_of_empty in H].
    intros H. apply extract_entities_iff in H as (r & Hr & Hs).
    pose proof entity_patterns_need_letter as Hall.
    rewrite Forall_forall in Hall. specialize (Hall _ Hr). simpl in Hall.
    unfold search in Hs.
    by rewrite (search_from_lacking _ _ Hall) in Hs. }
  split; [exact He|]. split.
  - pose proof domain_patterns_need_letter as Hall.
    repeat (apply Forall_cons in Hall as [? Hall]).
    unfold classify_domain_strict, search.
    by rewrite !(search_from_lacking Str.is_lower_alpha) by done.
  - intros k p sc Hk. rewrite He in Hk.
    split; apply gate_needs_entities; [by left|by right].
Qed.

Lemma no_letter_no_entity_witness :
  extract_entities_strict "2024: 50% / $100" = ∅
  /\ classify_domain_strict "2024: 50% / $100" = "other"
  /\ (forall (k p : market) (sc : Q),
        entities k = extract_entities_strict "2024: 50% / $100" ->
        is_high_quality_match k p sc = false
        /\ is_high_quality_match p k sc = false).
Proof.
  apply (no_letter_no_entity "2024: 50% / $100").
  vm_compute. repeat constructor.
Defined.
